(** * LensSim: the lens-assembly ray-transport engine (src/lens-system.h)

    A shallow embedding of [reflect], [fresnel], [refract] and of the
    [LensSystem] class (loading, axial placement, [raytrace],
    [computeCardinalPoints]).

    Numbers.  The C++ type [Real] is a floating-point type; it is embedded
    as the field [R] of real numbers, so every arithmetic statement below
    is about exact arithmetic.  Comparisons are the decidable comparisons
    of [R].  [element_index] is a C++ [int] and is embedded as [Z]; the
    index field of an element is an [unsigned int] and is embedded as [N].

    Absent header.  [lens-element.h] (the classes [LensElement],
    [Aperture], [Lens], and the [Prl2] types [Vec3], [Ray], [Hit]) is not
    part of the sources.  The vector types are given their usual meaning
    in module [Prl2]; the virtual method [intersect] of an element is a
    parameter of every definition that calls it. *)

From Stdlib Require Import Reals Lra Psatz List ZArith Lia Bool.
From Stdlib Require Import Permutation Sorted.
Import ListNotations.

Open Scope R_scope.

(* ================================================================== *)
(** ** Vectors, rays and hits *)

Module Prl2.

(** Modelled from the spec: the [Vec3] of the absent [Prl2] headers, a
    triple of [Real] with componentwise arithmetic and the Euclidean dot
    product. *)
Record Vec3 : Type := mkVec3 { vx : R; vy : R; vz : R }.

Definition dot (a b : Vec3) : R :=
  vx a * vx b + vy a * vy b + vz a * vz b.

Definition vneg (a : Vec3) : Vec3 :=
  mkVec3 (- vx a) (- vy a) (- vz a).

Definition vadd (a b : Vec3) : Vec3 :=
  mkVec3 (vx a + vx b) (vy a + vy b) (vz a + vz b).

Definition vscale (k : R) (a : Vec3) : Vec3 :=
  mkVec3 (k * vx a) (k * vy a) (k * vz a).

(** Modelled from the spec: a [Ray] is an origin point and a direction
    vector; [ray(t)] is the point [origin + t * direction]. *)
Record Ray : Type := mkRay { origin : Vec3; direction : Vec3 }.

Definition ray_at (r : Ray) (t : R) : Vec3 :=
  vadd (origin r) (vscale t (direction r)).

(** Modelled from the spec: a [Hit] is the result of an intersection
    test, the hit point and the surface normal there. *)
Record Hit : Type := mkHit { hitPos : Vec3; hitNormal : Vec3 }.

End Prl2.
Export Prl2.

Declare Scope vec_scope.
Delimit Scope vec_scope with vec.
Bind Scope vec_scope with Vec3.
Notation "- a" := (vneg a) : vec_scope.
Notation "a + b" := (vadd a b) : vec_scope.
Notation "k *v a" := (vscale k a) (at level 40, left associativity) : vec_scope.

(* ================================================================== *)
(** ** The three free functions *)

(** [reflect]: [-v + 2 * dot(v, n) * n]. *)
Definition reflect (v n : Vec3) : Vec3 :=
  (- v + (2 * dot v n) *v n)%vec.

(** [fresnel]: Schlick's approximation.  [std::pow] with the exponents
    [2.0f] and [5.0f] is the integer power. *)
Definition fresnel (wo n : Vec3) (n1 n2 : R) : R :=
  let f0 := ((n1 - n2) / (n1 + n2)) ^ 2 in
  f0 + (1 - f0) * (1 - dot wo n) ^ 5.

(** The value [sin2ThetaT] that [refract] tests. *)
Definition sin2ThetaT (wi n : Vec3) (ior1 ior2 : R) : R :=
  let eta := ior1 / ior2 in
  let cosThetaI := dot wi n in
  let sin2ThetaI := Rmax 0 (1 - cosThetaI * cosThetaI) in
  eta * eta * sin2ThetaI.

(** [refract]: the [bool] result and the out-parameter [wt] become an
    [option]; [None] is [return false], where [wt] is not written. *)
Definition refract (wi n : Vec3) (ior1 ior2 : R) : option Vec3 :=
  let eta := ior1 / ior2 in
  let cosThetaI := dot wi n in
  if Rge_dec (sin2ThetaT wi n ior1 ior2) 1 then None
  else
    let cosThetaT := sqrt (1 - sin2ThetaT wi n ior1 ior2) in
    Some (eta *v (- wi) + (eta * cosThetaI - cosThetaT) *v n)%vec.

(** The sine of the angle of incidence, from [cos(thetaI) = dot(wi, n)]. *)
Definition sinThetaI (wi n : Vec3) : R :=
  sqrt (Rmax 0 (1 - dot wi n * dot wi n)).

(* ================================================================== *)
(** ** Lens elements *)

(** The two classes derived from [LensElement], with the constructor
    arguments in the order [loadJSON] passes them and the axial position
    [z], which the [LensSystem] constructor assigns after loading. *)
Inductive LensElement : Type :=
| Aperture (index : N) (aperture_radius thickness z : R)
| Lens (index : N) (aperture_radius thickness z curvature_radius ior : R).

Definition index (e : LensElement) : N :=
  match e with
  | Aperture i _ _ _ => i
  | Lens i _ _ _ _ _ => i
  end.

Definition thickness (e : LensElement) : R :=
  match e with
  | Aperture _ _ t _ => t
  | Lens _ _ t _ _ _ => t
  end.

Definition z (e : LensElement) : R :=
  match e with
  | Aperture _ _ _ z0 => z0
  | Lens _ _ _ z0 _ _ => z0
  end.

(** The assignment [element->z = v]. *)
Definition set_z (e : LensElement) (v : R) : LensElement :=
  match e with
  | Aperture i a t _ => Aperture i a t v
  | Lens i a t _ c n => Lens i a t v c n
  end.

(** [std::dynamic_pointer_cast<Lens>(element)] followed by [->ior]. *)
Definition lens_ior (e : LensElement) : option R :=
  match e with
  | Aperture _ _ _ _ => None
  | Lens _ _ _ _ _ n => Some n
  end.

(* ================================================================== *)
(** ** Loading and axial placement *)

(** One value of the JSON object, with the five fields [loadJSON] reads. *)
Record JsonValue : Type := mkJsonValue {
  json_index : N;
  json_curvature_radius : R;
  json_thickness : R;
  json_eta : R;
  json_aperture_diameter : R
}.

(** The body of the loop over [json.items()]: unit conversion from
    millimetres to metres, then an [Aperture] when the curvature radius is
    zero and a [Lens] otherwise.  The position [z] is not an argument of
    the element constructors; it stands at [0] until it is assigned. *)
Definition element_of_json (value : JsonValue) : LensElement :=
  let index := json_index value in
  let curvature_radius := json_curvature_radius value * 1e-3 in
  let thickness := json_thickness value * 1e-3 in
  let ior := json_eta value in
  let aperture_radius := 0.5 * json_aperture_diameter value * 1e-3 in
  if Req_dec_T curvature_radius 0
  then Aperture index aperture_radius thickness 0
  else Lens index aperture_radius thickness 0 curvature_radius ior.

(** The comparator handed to [std::sort]: [x1->index < x2->index]. *)
Definition index_lt (x1 x2 : LensElement) : bool := (index x1 <? index x2)%N.

(** What [std::sort] guarantees for the comparator [index_lt]: the result
    is a rearrangement of the input in which no element is followed by
    one of smaller index.  The order among equal indices is not fixed. *)
Definition sorts_by_index (sort : list LensElement -> list LensElement) : Prop :=
  forall l,
    Permutation l (sort l) /\
    StronglySorted (fun a b => index_lt b a = false) (sort l).

(** A sorting function with that guarantee: insertion sort. *)
Fixpoint insert_by_index (e : LensElement) (l : list LensElement) : list LensElement :=
  match l with
  | [] => [e]
  | x :: tl => if index_lt e x then e :: l else x :: insert_by_index e tl
  end.

Fixpoint insertion_sort (l : list LensElement) : list LensElement :=
  match l with
  | [] => []
  | x :: tl => insert_by_index x (insertion_sort tl)
  end.

Section Loading.

Variable sort : list LensElement -> list LensElement.

(** [loadJSON]: the stream is [None] when the file cannot be opened,
    and otherwise the parsed values in the order [json.items()] yields
    them.  The result is the [elements] vector on [return true]. *)
Definition loadJSON (stream : option (list JsonValue)) : option (list LensElement) :=
  match stream with
  | None => None
  | Some items => Some (sort (map element_of_json items))
  end.

End Loading.

(** The loop of the constructor over [elements.rbegin() .. elements.rend()]:
    it receives the elements last first, with the running [length]. *)
Fixpoint assign_z_backward (length : R) (reversed : list LensElement) : list LensElement :=
  match reversed with
  | [] => []
  | e :: rest =>
      let length := length + thickness e in
      set_z e (- length) :: assign_z_backward length rest
  end.

Definition assign_z (elements : list LensElement) : list LensElement :=
  rev (assign_z_backward 0 (rev elements)).

(** The sum [length] reaches on a run of elements, added last first. *)
Definition sum_thickness (l : list LensElement) : R :=
  fold_right (fun e s => s + thickness e) 0 l.

(** The placement of a stack: each element lies its own thickness
    before the next one, the last one ends at the origin, and every [z] is
    minus the sum of the thicknesses from that element on. *)
Definition z_chain (l : list LensElement) : Prop :=
  (forall i a b, nth_error l i = Some a -> nth_error l (S i) = Some b ->
                 z a = z b - thickness a) /\
  (forall e, nth_error l (pred (List.length l)) = Some e -> z e + thickness e = 0) /\
  (forall i e, nth_error l i = Some e -> z e = - sum_thickness (skipn i l)).

(* ================================================================== *)
(** ** raytrace *)

(** How a call of [raytrace] ends: [Exited] is [return true] with
    [ray_out]; the other three are the three [return false] statements an
    element of class [Aperture] or [Lens] can reach, where [ray_out] is
    not written. *)
Inductive TraceResult : Type :=
| Exited (ray_out : Ray)
| BlockedAtAperture
| MissedLens
| TotalInternalReflection.

Definition succeeded (r : TraceResult) : bool :=
  match r with Exited _ => true | _ => false end.

(** The local variables of the loop. *)
Record WalkState : Type := mkWalk {
  element_index : Z;
  ray : Ray;
  ior : R
}.

(** The test [ray.direction.z() > 0]. *)
Definition toward_image (r : Ray) : bool :=
  if Rgt_dec (vz (direction r)) 0 then true else false.

(** [elements[i]] for an [int] index. *)
Definition element_at (elements : list LensElement) (i : Z) : option LensElement :=
  if (i <? 0)%Z then None else nth_error elements (Z.to_nat i).

(** "Compute Next Element IOR", at the element [element_index]. *)
Definition next_ior (elements : list LensElement) (element_index : Z) (ray : Ray) : R :=
  let next_element_index :=
    if toward_image ray then element_index else (element_index - 1)%Z in
  if (next_element_index >=? 0)%Z then
    match element_at elements next_element_index with
    | Some next_element =>
        match lens_ior next_element with
        | Some next_lens_ior => next_lens_ior
        | None => 1
        end
    | None => 1
    end
  else 1.

Section Transport.

(** The virtual method [element->intersect(ray, res)]: [None] when it
    returns [false], the hit otherwise. *)
Variable intersect : LensElement -> Ray -> option Hit.

(** What the loop body does at an element.  An element is of one of the
    two classes, so the last [else] of the source, reached when neither
    cast succeeds, has no counterpart. *)
Definition visit (elements : list LensElement) (reflection : bool)
    (element_index : Z) (element : LensElement) (st : WalkState)
  : WalkState + TraceResult :=
  match element with
  | Aperture _ _ _ _ =>
      match intersect element (ray st) with
      | None => inr BlockedAtAperture
      | Some res =>
          inl (mkWalk element_index
                      (mkRay (hitPos res) (direction (ray st)))
                      1)
      end
  | Lens _ _ _ _ _ _ =>
      let next_ior := next_ior elements element_index (ray st) in
      match intersect element (ray st) with
      | None => inr MissedLens
      | Some res =>
          if reflection then
            inl (mkWalk element_index (ray st) (ior st))
          else
            match refract (- direction (ray st))%vec (hitNormal res)
                          (ior st) next_ior with
            | None => inr TotalInternalReflection
            | Some next_direction =>
                inl (mkWalk element_index
                            (mkRay (hitPos res) next_direction)
                            next_ior)
            end
      end
  end.

(** One iteration of [while (true)]: the index moves by one in the
    direction of the current ray, the loop is left when the index is out
    of the vector, and the element is visited otherwise.  The inner [None]
    does not occur: the index has just been found to lie in the vector. *)
Definition iteration (elements : list LensElement) (reflection : bool)
    (st : WalkState) : WalkState + TraceResult :=
  let element_index :=
    (element_index st + (if toward_image (ray st) then 1 else -1))%Z in
  if ((element_index <? 0) || (element_index >=? Z.of_nat (List.length elements)))%Z
  then inr (Exited (ray st))
  else
    match element_at elements element_index with
    | None => inr (Exited (ray st))
    | Some element => visit elements reflection element_index element st
    end.

(** The loop, run for at most [fuel] iterations; [None] when it has not
    been left by then. *)
Fixpoint walk (fuel : nat) (elements : list LensElement) (reflection : bool)
    (st : WalkState) : option TraceResult :=
  match fuel with
  | O => None
  | S fuel =>
      match iteration elements reflection st with
      | inr r => Some r
      | inl st => walk fuel elements reflection st
      end
  end.

(** The state before the first iteration. *)
Definition start (elements : list LensElement) (ray_in : Ray) : WalkState :=
  mkWalk (if toward_image ray_in then -1 else Z.of_nat (List.length elements))%Z
         ray_in
         1.

Definition raytrace (fuel : nat) (elements : list LensElement)
    (ray_in : Ray) (reflection : bool) : option TraceResult :=
  walk fuel elements reflection (start elements ray_in).

(** The state after [k] iterations, when the loop has not been left. *)
Fixpoint state_after (k : nat) (elements : list LensElement) (reflection : bool)
    (st : WalkState) : option WalkState :=
  match k with
  | O => Some st
  | S k =>
      match iteration elements reflection st with
      | inr _ => None
      | inl st => state_after k elements reflection st
      end
  end.

End Transport.

(** The rays of a call keep the heading of the input ray: after every
    number of iterations that leaves the loop running, the test
    [ray.direction.z() > 0] gives what it gave for [ray_in]. *)
Definition keeps_heading (intersect : LensElement -> Ray -> option Hit)
    (elements : list LensElement) (reflection : bool) (ray_in : Ray) : Prop :=
  forall k st,
    state_after intersect k elements reflection (start elements ray_in) = Some st ->
    toward_image (ray st) = toward_image ray_in.

(** The index of refraction of the medium the ray is about to enter in
    the words of the specification: that of the element adjacent in the
    direction of travel when it lies in the stack and is a [Lens], and
    [1.0] otherwise. *)
Definition adjacent_lens_ior (elements : list LensElement) (element_index : Z)
    (ray : Ray) : R :=
  let adjacent :=
    if toward_image ray then (element_index + 1)%Z else (element_index - 1)%Z in
  match element_at elements adjacent with
  | Some e => match lens_ior e with Some n => n | None => 1 end
  | None => 1
  end.

(* ================================================================== *)
(** ** The lens system and its cardinal points *)

Record LensSystem : Type := mkLensSystem {
  elements : list LensElement;
  object_focal_z : R;
  object_principal_z : R;
  object_focal_length : R;
  image_focal_z : R;
  image_principal_z : R;
  image_focal_length : R
}.

Definition set_image (sys : LensSystem) (focal_z principal_z focal_length : R) : LensSystem :=
  mkLensSystem (elements sys)
               (object_focal_z sys) (object_principal_z sys) (object_focal_length sys)
               focal_z principal_z focal_length.

Definition set_object (sys : LensSystem) (focal_z principal_z focal_length : R) : LensSystem :=
  mkLensSystem (elements sys)
               focal_z principal_z focal_length
               (image_focal_z sys) (image_principal_z sys) (image_focal_length sys).

(** The probe height of [computeCardinalPoints]. *)
Definition height : R := 0.001.

(** The first probe ray, for the element [front] that [elements.front()]
    returns. *)
Definition object_probe (front : LensElement) : Ray :=
  mkRay (mkVec3 0 height (z front - 1)) (mkVec3 0 0 1).

(** The second probe ray. *)
Definition image_probe : Ray :=
  mkRay (mkVec3 0 height 0) (mkVec3 0 0 (-1)).

(** Where [ray_out] crosses the axis: [t = -origin.y / direction.y],
    then [ray_out(t).z()]. *)
Definition focal_z_of (ray_out : Ray) : R :=
  let t := - vy (origin ray_out) / vy (direction ray_out) in
  vz (ray_at ray_out t).

(** Where [ray_out] is at the probe height:
    [t = -(origin.y - height) / direction.y], then [ray_out(t).z()]. *)
Definition principal_z_of (ray_out : Ray) : R :=
  let t := - (vy (origin ray_out) - height) / vy (direction ray_out) in
  vz (ray_at ray_out t).

(** The result of a constructor call. *)
Inductive Construction : Type :=
| Constructed (sys : LensSystem)
| ExitFailure.

Section Estimator.

Variable intersect : LensElement -> Ray -> option Hit.

(** [computeCardinalPoints]: the returned [bool] and the object after the
    call.  [None] when one of the two traces has not ended within [fuel]
    iterations, and for an empty vector, where [elements.front()] has no
    defined value. *)
Definition computeCardinalPoints (fuel : nat) (sys : LensSystem)
  : option (bool * LensSystem) :=
  match elements sys with
  | [] => None
  | front :: _ =>
      match raytrace intersect fuel (elements sys) (object_probe front) false with
      | None => None
      | Some (Exited ray_out) =>
          let image_focal_z := focal_z_of ray_out in
          let image_principal_z := principal_z_of ray_out in
          let image_focal_length := image_focal_z - image_principal_z in
          let sys := set_image sys image_focal_z image_principal_z image_focal_length in
          match raytrace intersect fuel (elements sys) image_probe false with
          | None => None
          | Some (Exited ray_out) =>
              let object_focal_z := focal_z_of ray_out in
              let object_principal_z := principal_z_of ray_out in
              let object_focal_length := object_focal_z - object_principal_z in
              Some (true,
                    set_object sys object_focal_z object_principal_z object_focal_length)
          | Some _ => Some (false, sys)
          end
      | Some _ => Some (false, sys)
      end
  end.

Variable sort : list LensElement -> list LensElement.

(** The constructor [LensSystem(filename)].  The six cardinal values are
    not initialised before [computeCardinalPoints] writes them; they stand
    at [0] until then. *)
Definition LensSystem_new (fuel : nat) (stream : option (list JsonValue))
  : option Construction :=
  match loadJSON sort stream with
  | None => Some ExitFailure
  | Some loaded =>
      let sys := mkLensSystem (assign_z loaded) 0 0 0 0 0 0 in
      match computeCardinalPoints fuel sys with
      | None => None
      | Some (true, sys) => Some (Constructed sys)
      | Some (false, _) => Some ExitFailure
      end
  end.

End Estimator.

(* ================================================================== *)
(** ** Sample prescriptions, stacks and intersection tests *)

Module Samples.

(** A prescription whose two entries carry the index value [1]: a lens
    surface and an aperture stop. *)
Definition duplicate_index : list JsonValue :=
  [ mkJsonValue 1 50 5 1.5 20; mkJsonValue 1 0 10 1 10 ].

(** A prescription with one aperture stop. *)
Definition single_stop : list JsonValue :=
  [ mkJsonValue 0 0 10 1 10 ].

(** An intersection test for flat elements: the ray meets the plane of
    the element at [t = -(origin.z - z) / direction.z]; it misses when the
    point lies outside the aperture radius; the normal faces the ray. *)
Definition flat_intersect (e : LensElement) (r : Ray) : option Hit :=
  let t := - (vz (origin r) - z e) / vz (direction r) in
  let p := ray_at r t in
  let radius := match e with
                | Aperture _ a _ _ => a
                | Lens _ a _ _ _ _ => a
                end in
  if Rgt_dec (vx p * vx p + vy p * vy p) (radius * radius) then None
  else Some (mkHit p (mkVec3 0 0 (if toward_image r then -1 else 1))).

(** An intersection test that always hits, at the origin of the ray, and
    reports the same normal [normal] everywhere. *)
Definition facet_intersect (normal : Vec3) (e : LensElement) (r : Ray) : option Hit :=
  Some (mkHit (origin r) normal).

(** A normal tilted against an oblique ray, and that ray: both are unit
    vectors and the normal faces the ray ([dot] is [-0.28]). *)
Definition tilted_normal : Vec3 := mkVec3 (-0.6) 0 0.8.
Definition oblique_ray : Ray := mkRay (mkVec3 0 0 (-1)) (mkVec3 0.936 0 0.352).

(** An aperture stop followed by a lens surface of index [1.6]. *)
Definition stop_then_lens : list LensElement :=
  [ Aperture 0 0.01 0.01 (-0.02); Lens 1 0.01 0.01 (-0.01) (-0.02) 1.6 ].

(** An intersection test that always hits, at the vertex of the element,
    and reports the outward normal of the sphere there, whichever way the
    ray travels: toward the object side for a positive curvature radius
    and toward the image side for a negative one. *)
Definition vertex_intersect (e : LensElement) (r : Ray) : option Hit :=
  match e with
  | Aperture _ _ _ z0 => Some (mkHit (mkVec3 0 0 z0) (mkVec3 0 0 (-1)))
  | Lens _ _ _ z0 c _ =>
      Some (mkHit (mkVec3 0 0 z0)
                  (mkVec3 0 0 (if Rgt_dec c 0 then -1 else 1)))
  end.

(** The two surfaces of a biconvex lens of index [1.5]. *)
Definition biconvex : list LensElement :=
  [ Lens 0 0.01 0.005 (-0.055) 0.05 1.5; Lens 1 0.01 0.05 (-0.05) (-0.05) 1 ].

(** A ray on the axis, travelling toward the image side. *)
Definition axial_ray : Ray := mkRay (mkVec3 0 0 (-1)) (mkVec3 0 0 1).

(** The unit normal that faces a ray travelling toward the image side. *)
Definition facing : Vec3 := mkVec3 0 0 (-1).

(** An aperture stop of radius 5 mm, and rays parallel to the axis at
    the heights 3 mm and 6 mm. *)
Definition stop : list LensElement := [ Aperture 0 0.005 0.01 (-0.01) ].
Definition ray_inside : Ray := mkRay (mkVec3 0 0.003 (-1)) (mkVec3 0 0 1).

(** A lens system whose stack is that stop, before its cardinal points
    are computed. *)
Definition stop_system : LensSystem := mkLensSystem stop 0 0 0 0 0 0.

(** A single lens surface. *)
Definition single_lens : list LensElement :=
  [ Lens 0 0.01 0.005 (-0.005) 0.05 1.5 ].

End Samples.

(* ================================================================== *)
(** ** rotate2D (src/lens-system/lens-system.h) *)

(** Modelled from the spec: the [Vec2] of the absent [Prl2] headers, a
    pair of [Real]. *)
Record Vec2 : Type := mkVec2 { px : R; py : R }.

(** [rotate2D]: the point [p] turned about the origin by [theta]. *)
Definition rotate2D (p : Vec2) (theta : R) : Vec2 :=
  mkVec2 (px p * cos theta - py p * sin theta)
         (px p * sin theta + py p * cos theta).

(* ================================================================== *)
(** ** Kinds of stacks, and further samples *)

(** [std::dynamic_pointer_cast<Aperture>(element)] succeeds. *)
Definition is_aperture (e : LensElement) : bool :=
  match e with
  | Aperture _ _ _ _ => true
  | Lens _ _ _ _ _ _ => false
  end.

(** An element with its axial position put back to [0]: everything
    about it but [z]. *)
Definition without_z (e : LensElement) : LensElement := set_z e 0.

Module Cases.

(** An intersection test that hits, at the origin of the ray and with
    the normal [normal], only rays that travel toward the image side. *)
Definition one_way_intersect (normal : Vec3) (e : LensElement) (r : Ray) : option Hit :=
  if toward_image r then Some (mkHit (origin r) normal) else None.

(** A unit normal tilted steeply against the axis. *)
Definition steep_normal : Vec3 := mkVec3 0 0.96 (-0.28).

(** A lens system of one lens surface of index [1.6]. *)
Definition steep_lens : LensElement := Lens 0 0.01 0.005 (-0.005) 0.05 1.6.
Definition steep_system : LensSystem := mkLensSystem [steep_lens] 0 0 0 0 0 0.

(** A prescription of two surfaces, and the same entries in the other
    order. *)
Definition doublet : list JsonValue :=
  [ mkJsonValue 1 (-50) 50 1 20; mkJsonValue 0 50 5 1.5 20 ].
Definition doublet_swapped : list JsonValue :=
  [ mkJsonValue 0 50 5 1.5 20; mkJsonValue 1 (-50) 50 1 20 ].

(** The biconvex lens of [Samples] with other values in [z]. *)
Definition biconvex_unplaced : list LensElement :=
  [ Lens 0 0.01 0.005 7 0.05 1.5; Lens 1 0.01 0.05 3 (-0.05) 1 ].

End Cases.

(* ------------------------------------------------------------------ *)
(** * Properties *)

(* ================================================================== *)
(** ** Facts about vectors *)

Lemma Vec3_eq (a b : Vec3) :
  vx a = vx b -> vy a = vy b -> vz a = vz b -> a = b.
Proof.
  destruct a, b; simpl; intros -> -> ->; reflexivity.
Qed.

Lemma sinThetaI_nonneg wi n : 0 <= sinThetaI wi n.
Proof. apply sqrt_pos. Qed.

Lemma sinThetaI_sqr wi n :
  sinThetaI wi n * sinThetaI wi n = Rmax 0 (1 - dot wi n * dot wi n).
Proof.
  unfold sinThetaI. apply sqrt_sqrt. apply Rmax_l.
Qed.

Lemma sin2ThetaT_sqr wi n ior1 ior2 :
  sin2ThetaT wi n ior1 ior2 =
  (ior1 / ior2 * sinThetaI wi n) * (ior1 / ior2 * sinThetaI wi n).
Proof.
  unfold sin2ThetaT; cbv zeta.
  rewrite <- (sinThetaI_sqr wi n). ring.
Qed.

Lemma refract_None_iff wi n ior1 ior2 :
  refract wi n ior1 ior2 = None <-> sin2ThetaT wi n ior1 ior2 >= 1.
Proof.
  unfold refract; cbv zeta.
  destruct (Rge_dec (sin2ThetaT wi n ior1 ior2) 1) as [H | H];
    split; intro G; try easy.
Qed.

(* ================================================================== *)
(** ** reflect *)

(** Two reflections about any [n], unit or not. *)
Lemma reflect_twice (v n : Vec3) :
  reflect (reflect v n) n = (v + (4 * dot v n * (dot n n - 1)) *v n)%vec.
Proof.
  destruct v as [a b c], n as [p q r].
  apply Vec3_eq; unfold reflect, dot; simpl; ring.
Qed.

(** C8: for every vector [v] and every unit normal [n], reflecting twice
    about [n] gives [v] back. *)
Theorem reflect_involutive (v n : Vec3) :
  dot n n = 1 -> reflect (reflect v n) n = v.
Proof.
  intros Hn. rewrite reflect_twice, Hn.
  destruct v, n; apply Vec3_eq; unfold dot; simpl; ring.
Qed.

Lemma reflect_involutive_witness :
  dot (mkVec3 0 0 1) (mkVec3 0 0 1) = 1 /\
  reflect (reflect (mkVec3 1 2 3) (mkVec3 0 0 1)) (mkVec3 0 0 1) = mkVec3 1 2 3.
Proof.
  assert (H : dot (mkVec3 0 0 1) (mkVec3 0 0 1) = 1) by (unfold dot; simpl; lra).
  split; [exact H | exact (reflect_involutive (mkVec3 1 2 3) (mkVec3 0 0 1) H)].
Defined.

(* ================================================================== *)
(** ** refract *)

(** At grazing incidence between equal media [sin2ThetaT] is exactly [1]:
    [refract] fails, while [ior1/ior2 * sin(thetaI)] is [1], not above. *)
Lemma refract_fails_at_grazing_incidence :
  refract (mkVec3 1 0 0) (mkVec3 0 0 1) 1 1 = None /\
  ~ (1 / 1 * sinThetaI (mkVec3 1 0 0) (mkVec3 0 0 1) > 1).
Proof.
  assert (E : Rmax 0 (1 - dot (mkVec3 1 0 0) (mkVec3 0 0 1) *
                          dot (mkVec3 1 0 0) (mkVec3 0 0 1)) = 1).
  { unfold dot; simpl. rewrite Rmax_right by lra. lra. }
  split.
  - apply refract_None_iff. unfold sin2ThetaT; cbv zeta. rewrite E. lra.
  - unfold sinThetaI. rewrite E, sqrt_1. lra.
Qed.

(** C2, amended: for positive indices of refraction [refract] fails
    exactly when [ior1/ior2 * sin(thetaI) >= 1], that is when
    [sin2ThetaT = (ior1/ior2)^2 * max(0, 1 - cos^2(thetaI))] is at least
    [1]; on failure there is no transmitted direction, on success it is
    [eta * (-wi) + (eta * cosThetaI - cosThetaT) * n]. *)
Theorem refract_fails_iff (wi n : Vec3) (ior1 ior2 : R) :
  0 < ior1 -> 0 < ior2 ->
  let eta := ior1 / ior2 in
  let cosThetaI := dot wi n in
  sin2ThetaT wi n ior1 ior2 = eta ^ 2 * Rmax 0 (1 - cosThetaI ^ 2) /\
  (refract wi n ior1 ior2 = None <-> eta * sinThetaI wi n >= 1) /\
  (refract wi n ior1 ior2 = None <-> sin2ThetaT wi n ior1 ior2 >= 1) /\
  (sin2ThetaT wi n ior1 ior2 < 1 ->
   refract wi n ior1 ior2 =
   Some (eta *v (- wi) +
         (eta * cosThetaI - sqrt (1 - sin2ThetaT wi n ior1 ior2)) *v n)%vec).
Proof.
  intros H1 H2 eta cosThetaI.
  assert (Heta : 0 < eta) by (apply Rdiv_lt_0_compat; assumption).
  pose proof (sinThetaI_nonneg wi n) as Hs.
  pose proof (sin2ThetaT_sqr wi n ior1 ior2) as Hsq. fold eta in Hsq.
  repeat split.
  - unfold sin2ThetaT; cbv zeta. fold eta cosThetaI.
    replace (cosThetaI ^ 2) with (cosThetaI * cosThetaI) by ring. ring.
  - intro F. apply refract_None_iff in F. rewrite Hsq in F.
    set (x := eta * sinThetaI wi n) in *.
    assert (0 <= x) by (unfold x; nra).
    destruct (Rge_dec x 1) as [G | G]; [exact G | nra].
  - intro G. apply refract_None_iff. rewrite Hsq.
    fold eta. nra.
  - apply refract_None_iff.
  - apply refract_None_iff.
  - intro L. unfold refract; cbv zeta.
    destruct (Rge_dec (sin2ThetaT wi n ior1 ior2) 1) as [G | G]; [lra | reflexivity].
Qed.

Lemma refract_fails_iff_witness :
  refract (mkVec3 0 0 1) (mkVec3 0 0 1) 1 1.5 =
  Some (mkVec3 0 0 (-1)).
Proof.
  assert (H1 : 0 < 1) by lra.
  assert (H2 : 0 < 1.5) by lra.
  destruct (refract_fails_iff (mkVec3 0 0 1) (mkVec3 0 0 1) 1 1.5 H1 H2)
    as (Hs & _ & _ & Hok).
  assert (E : sin2ThetaT (mkVec3 0 0 1) (mkVec3 0 0 1) 1 1.5 = 0).
  { rewrite Hs. unfold dot; simpl.
    rewrite Rmax_left by lra. lra. }
  rewrite Hok by (rewrite E; lra).
  rewrite E, Rminus_0_r, sqrt_1.
  f_equal. apply Vec3_eq; unfold dot; simpl; lra.
Defined.

(* ================================================================== *)
(** ** fresnel *)

(** A direction on the far side of the surface, [dot(wo, n) = -1], between
    air and glass: the value is [30.76]. *)
Lemma fresnel_above_one :
  ~ (0 <= fresnel (mkVec3 0 0 (-1)) (mkVec3 0 0 1) 1 1.5 <= 1).
Proof.
  unfold fresnel, dot; simpl. lra.
Qed.

(** C7, amended: for positive indices of refraction and a direction with
    [0 <= dot(wo, n) <= 1], [fresnel] lies in [[0, 1]]; at normal incidence,
    [dot(wo, n) = 1], it is exactly [((n1 - n2) / (n1 + n2))^2]. *)
Theorem fresnel_range (wo n : Vec3) (n1 n2 : R) :
  0 < n1 -> 0 < n2 ->
  (0 <= dot wo n <= 1 -> 0 <= fresnel wo n n1 n2 <= 1) /\
  (dot wo n = 1 -> fresnel wo n n1 n2 = ((n1 - n2) / (n1 + n2)) ^ 2).
Proof.
  intros H1 H2.
  set (q := (n1 - n2) / (n1 + n2)).
  assert (Hq : -1 < q < 1).
  { unfold q. split.
    - apply Rmult_lt_reg_r with (n1 + n2); [lra |].
      unfold Rdiv. rewrite Rmult_assoc, Rinv_l by lra. lra.
    - apply Rmult_lt_reg_r with (n1 + n2); [lra |].
      unfold Rdiv. rewrite Rmult_assoc, Rinv_l by lra. lra. }
  assert (Hf0 : 0 <= q ^ 2 <= 1) by (simpl; nra).
  split.
  - intros Hd. unfold fresnel; cbv zeta. fold q.
    set (c := 1 - dot wo n).
    assert (Hc : 0 <= c <= 1) by (unfold c; lra).
    assert (Hc5 : 0 <= c ^ 5 <= 1).
    { split.
      - apply pow_le; lra.
      - rewrite <- (pow1 5). apply pow_incr. lra. }
    set (f0 := q ^ 2) in *. set (x := c ^ 5) in *. nra.
  - intros Hd. unfold fresnel; cbv zeta. fold q. rewrite Hd.
    replace (1 - 1) with 0 by ring. rewrite pow_i by lia. ring.
Qed.

Lemma fresnel_range_witness :
  0 <= fresnel (mkVec3 0 0 1) (mkVec3 0 0 1) 1 1.5 <= 1 /\
  fresnel (mkVec3 0 0 1) (mkVec3 0 0 1) 1 1.5 = ((1 - 1.5) / (1 + 1.5)) ^ 2.
Proof.
  assert (H1 : 0 < 1) by lra.
  assert (H2 : 0 < 1.5) by lra.
  assert (Hd : dot (mkVec3 0 0 1) (mkVec3 0 0 1) = 1) by (unfold dot; simpl; lra).
  destruct (fresnel_range (mkVec3 0 0 1) (mkVec3 0 0 1) 1 1.5 H1 H2) as [Hr He].
  split; [apply Hr; rewrite Hd; lra | apply He; exact Hd].
Defined.

(* ================================================================== *)
(** ** Loading *)

Lemma index_element_of_json value : index (element_of_json value) = json_index value.
Proof.
  unfold element_of_json; cbv zeta.
  destruct (Req_dec_T (json_curvature_radius value * 1e-3) 0); reflexivity.
Qed.

Lemma index_lt_false_le a b : index_lt b a = false <-> (index a <= index b)%N.
Proof.
  unfold index_lt. rewrite N.ltb_ge. reflexivity.
Qed.

Lemma insert_by_index_perm e l : Permutation (e :: l) (insert_by_index e l).
Proof.
  induction l as [| x tl IH]; simpl.
  - apply Permutation_refl.
  - destruct (index_lt e x).
    + apply Permutation_refl.
    + eapply perm_trans; [apply perm_swap |]. apply perm_skip, IH.
Qed.

Lemma insert_by_index_sorted e l :
  StronglySorted (fun a b => index_lt b a = false) l ->
  StronglySorted (fun a b => index_lt b a = false) (insert_by_index e l).
Proof.
  induction 1 as [| x tl Hs IH Hx]; simpl.
  - constructor; [constructor | constructor].
  - destruct (index_lt e x) eqn:E.
    + constructor.
      * constructor; assumption.
      * unfold index_lt in E. apply N.ltb_lt in E.
        constructor.
        -- apply index_lt_false_le. lia.
        -- rewrite Forall_forall in *. intros y Hy.
           specialize (Hx y Hy). apply index_lt_false_le in Hx.
           apply index_lt_false_le. lia.
    + constructor; [exact IH |].
      rewrite Forall_forall in *. intros y Hy.
      apply (Permutation_in _ (Permutation_sym (insert_by_index_perm e tl))) in Hy.
      destruct Hy as [<- | Hy]; [| apply Hx, Hy].
      unfold index_lt in *. apply N.ltb_ge in E. apply N.ltb_ge. exact E.
Qed.

Lemma insertion_sort_sorts : sorts_by_index insertion_sort.
Proof.
  intro l. induction l as [| x tl [IHp IHs]]; simpl.
  - split; constructor.
  - split.
    + eapply perm_trans; [apply perm_skip, IHp | apply insert_by_index_perm].
    + apply insert_by_index_sorted, IHs.
Qed.

Lemma loadJSON_sorted (sort : list LensElement -> list LensElement)
    (items : list JsonValue) :
  sorts_by_index sort ->
  Permutation (map element_of_json items) (sort (map element_of_json items)) /\
  StronglySorted (fun a b => (index a <= index b)%N)
                 (sort (map element_of_json items)).
Proof.
  intros Hsort. destruct (Hsort (map element_of_json items)) as [Hp Hs].
  split; [exact Hp |].
  clear Hp. induction Hs as [| x tl Hs IH Hx]; constructor; [exact IH |].
  rewrite Forall_forall in *. intros y Hy. apply index_lt_false_le, Hx, Hy.
Qed.

(** The two entries of [Samples.duplicate_index] are both loaded: the
    call returns the vector of a lens and an aperture that carry the same
    index value. *)
Lemma loadJSON_accepts_duplicate_index :
  exists e1 e2,
    loadJSON insertion_sort (Some Samples.duplicate_index) = Some [e1; e2] /\
    index e1 = 1%N /\ index e2 = 1%N.
Proof.
  unfold loadJSON, Samples.duplicate_index; simpl map.
  unfold element_of_json; simpl.
  destruct (Req_dec_T (50 * 1e-3) 0) as [E | _]; [exfalso; lra |].
  destruct (Req_dec_T (0 * 1e-3) 0) as [_ | E]; [| exfalso; lra].
  simpl. eexists _, _. split; [reflexivity | split; reflexivity].
Qed.

(** C9, amended: [loadJSON] does not compare index values.  For a
    prescription whose entries have been read, each with its five fields,
    two entries that carry the same index value are no error: the call
    returns [true], and the vector it leaves holds one element for every
    entry, with that entry's index value, in ascending order of index.
    So exactly one element owns each index value after loading if and
    only if no two entries of the prescription carry the same index
    value. *)
Theorem loadJSON_keeps_every_entry (sort : list LensElement -> list LensElement)
    (items : list JsonValue) :
  sorts_by_index sort ->
  exists loaded,
    loadJSON sort (Some items) = Some loaded /\
    Permutation (map element_of_json items) loaded /\
    Permutation (map json_index items) (map index loaded) /\
    StronglySorted (fun a b => (index a <= index b)%N) loaded /\
    (NoDup (map index loaded) <-> NoDup (map json_index items)).
Proof.
  intros Hsort. destruct (loadJSON_sorted sort items Hsort) as [Hp Hs].
  assert (Hi : Permutation (map json_index items)
                           (map index (sort (map element_of_json items)))).
  { erewrite <- (map_ext (fun v => index (element_of_json v)));
      [| apply index_element_of_json].
    rewrite <- map_map. apply Permutation_map, Hp. }
  exists (sort (map element_of_json items)).
  split; [reflexivity |]. split; [exact Hp |]. split; [exact Hi |].
  split; [exact Hs |]. split.
  - apply Permutation_NoDup, Permutation_sym, Hi.
  - apply Permutation_NoDup, Hi.
Qed.

Lemma loadJSON_keeps_every_entry_witness :
  exists loaded,
    loadJSON insertion_sort (Some Samples.duplicate_index) = Some loaded /\
    Permutation (map element_of_json Samples.duplicate_index) loaded /\
    Permutation (map json_index Samples.duplicate_index) (map index loaded) /\
    StronglySorted (fun a b => (index a <= index b)%N) loaded /\
    (NoDup (map index loaded) <-> NoDup (map json_index Samples.duplicate_index)).
Proof.
  exact (loadJSON_keeps_every_entry insertion_sort Samples.duplicate_index
           insertion_sort_sorts).
Defined.

(* ================================================================== *)
(** ** The walk through the stack *)

Lemma toward_image_true r : vz (direction r) > 0 -> toward_image r = true.
Proof.
  intro H. unfold toward_image. destruct (Rgt_dec (vz (direction r)) 0); [reflexivity | contradiction].
Qed.

Lemma toward_image_false r : ~ vz (direction r) > 0 -> toward_image r = false.
Proof.
  intro H. unfold toward_image. destruct (Rgt_dec (vz (direction r)) 0); [contradiction | reflexivity].
Qed.

Lemma element_at_Some elements i e :
  element_at elements i = Some e -> (0 <= i < Z.of_nat (List.length elements))%Z.
Proof.
  unfold element_at. destruct (Z.ltb_spec i 0) as [H | H]; [discriminate |].
  intro E. assert (Hn : nth_error elements (Z.to_nat i) <> None) by congruence.
  apply nth_error_Some in Hn. lia.
Qed.

Section Walk.

Variable intersect : LensElement -> Ray -> option Hit.
Variable elements : list LensElement.
Variable reflection : bool.

Local Abbreviation step := (iteration intersect elements reflection).
Local Abbreviation run := (fun fuel => walk intersect fuel elements reflection).
Local Abbreviation after := (fun k => state_after intersect k elements reflection).

Lemma walk_S fuel st :
  run (S fuel) st =
  match step st with inr r => Some r | inl st' => run fuel st' end.
Proof. reflexivity. Qed.

Lemma state_after_S k st :
  after (S k) st =
  match step st with inr _ => None | inl st' => after k st' end.
Proof. reflexivity. Qed.

Lemma visit_index i e st st' :
  visit intersect elements reflection i e st = inl st' -> element_index st' = i.
Proof.
  unfold visit. destruct e.
  - destruct (intersect _ _); [| discriminate]. intros [= <-]. reflexivity.
  - destruct (intersect _ _); [| discriminate].
    destruct reflection.
    + intros [= <-]. reflexivity.
    + destruct (refract _ _ _ _); [| discriminate]. intros [= <-]. reflexivity.
Qed.

(** An iteration that stays in the loop has moved the index by one, in
    the direction of the ray it started with, to a place in the vector. *)
Lemma iteration_inl st st' :
  step st = inl st' ->
  element_index st' =
    (element_index st + (if toward_image (ray st) then 1 else -1))%Z /\
  (0 <= element_index st' < Z.of_nat (List.length elements))%Z.
Proof.
  unfold iteration; cbv zeta.
  set (i := (element_index st + _)%Z).
  destruct ((i <? 0)%Z || (i >=? Z.of_nat (List.length elements))%Z) eqn:B;
    [discriminate |].
  destruct (element_at elements i) as [e |] eqn:E; [| discriminate].
  intro V. apply visit_index in V. rewrite V.
  split; [reflexivity |]. eapply element_at_Some. exact E.
Qed.

Lemma walk_more fuel : forall st r more,
  run fuel st = Some r -> run (fuel + more)%nat st = Some r.
Proof.
  induction fuel as [| fuel IH]; intros st r more; simpl; [discriminate |].
  destruct (step st) as [st' | r']; [apply IH | trivial].
Qed.

Lemma walk_deterministic fuel1 fuel2 st r1 r2 :
  run fuel1 st = Some r1 -> run fuel2 st = Some r2 -> r1 = r2.
Proof.
  intros H1 H2.
  apply (walk_more _ _ _ fuel2) in H1. apply (walk_more _ _ _ fuel1) in H2.
  rewrite Nat.add_comm in H2. congruence.
Qed.

(** The loop is still running after [k] iterations exactly when [k]
    units of fuel do not suffice. *)
Lemma walk_None_state_after k : forall st,
  run k st = None <-> exists st', after k st = Some st'.
Proof.
  induction k as [| k IH]; intro st; simpl.
  - split; [eauto | reflexivity].
  - destruct (step st) as [st1 | r].
    + apply IH.
    + split; [discriminate | intros [? ?]; discriminate].
Qed.

Lemma state_after_plus k : forall st st' fuel,
  after k st = Some st' -> run (k + fuel)%nat st = run fuel st'.
Proof.
  induction k as [| k IH]; intros st st' fuel; simpl.
  - intros [= ->]. reflexivity.
  - destruct (step st) as [st1 | r]; [apply IH | discriminate].
Qed.

Lemma state_after_last k : forall st st',
  after k st = Some st' ->
  after (S k) st =
    match step st' with inl st'' => Some st'' | inr _ => None end.
Proof.
  induction k as [| k IH]; intros st st'.
  - simpl. intros [= ->]. destruct (step st'); reflexivity.
  - intro H. rewrite (state_after_S (S k) st). rewrite (state_after_S k st) in H.
    destruct (step st) as [st1 | r]; [apply IH, H | discriminate].
Qed.

(** A walk all of whose rays test alike moves the index [k] places in
    [k] iterations, and stays inside the vector. *)
Lemma state_after_index (h : bool) k : forall st st',
  (forall j s, after j st = Some s -> toward_image (ray s) = h) ->
  after k st = Some st' ->
  element_index st' =
    (element_index st + Z.of_nat k * (if h then 1 else -1))%Z /\
  (k <> O -> (0 <= element_index st' < Z.of_nat (List.length elements))%Z).
Proof.
  induction k as [| k IH]; intros st st' Hh.
  - simpl. intros [= ->]. split; [lia | congruence].
  - intro Hk. rewrite (state_after_S k st) in Hk.
    destruct (step st) as [st1 | r] eqn:It; [| discriminate]. destruct (iteration_inl _ _ It) as [Hi Hr].
    rewrite (Hh O st eq_refl) in Hi.
    assert (Hh1 : forall j s, after j st1 = Some s -> toward_image (ray s) = h).
    { intros j s Hj. apply (Hh (S j)). rewrite state_after_S, It. exact Hj. }
    destruct (IH st1 st' Hh1 Hk) as [Hi' Hr'].
    split.
    + rewrite Hi', Hi. destruct h; lia.
    + intros _. destruct k as [| k'].
      * simpl in Hk. injection Hk as <-. exact Hr.
      * apply Hr'. discriminate.
Qed.

End Walk.

(* ================================================================== *)
(** ** One iteration at an element *)

Section Iteration.

Variable intersect : LensElement -> Ray -> option Hit.
Variable elements : list LensElement.

(** The index the iteration that starts in [st] moves to. *)
Local Abbreviation moved st :=
  (element_index st + (if toward_image (ray st) then 1 else -1))%Z.

Lemma iteration_at reflection st e :
  element_at elements (moved st) = Some e ->
  iteration intersect elements reflection st =
  visit intersect elements reflection (moved st) e st.
Proof.
  intro E. unfold iteration; cbv zeta. rewrite E.
  pose proof (element_at_Some _ _ _ E) as Hr.
  destruct (Z.ltb_spec (moved st) 0) as [H | _]; [lia |].
  destruct (Z.geb_spec (moved st) (Z.of_nat (List.length elements))) as [H | _]; [lia |].
  reflexivity.
Qed.

Lemma iteration_exit reflection st :
  (moved st < 0 \/ Z.of_nat (List.length elements) <= moved st)%Z ->
  iteration intersect elements reflection st = inr (Exited (ray st)).
Proof.
  intro H. unfold iteration; cbv zeta.
  destruct (Z.ltb_spec (moved st) 0) as [| H0]; [reflexivity |].
  destruct (Z.geb_spec (moved st) (Z.of_nat (List.length elements))) as [| H1];
    [reflexivity | lia].
Qed.

(** The medium a lens surface opens into: for a ray travelling toward
    the image side it is the glass of the surface itself; for a ray
    travelling toward the object side it is the glass of the element
    before, or air when there is none or it is an aperture. *)
Lemma next_ior_cases i r :
  next_ior elements i r =
  match element_at elements (if toward_image r then i else (i - 1)%Z) with
  | Some e => match lens_ior e with Some n => n | None => 1 end
  | None => 1
  end.
Proof.
  unfold next_ior; cbv zeta.
  set (j := if toward_image r then i else (i - 1)%Z).
  destruct (Z.geb_spec j 0) as [H | H]; [reflexivity |].
  unfold element_at. destruct (Z.ltb_spec j 0); [reflexivity | lia].
Qed.

(** With [reflection] set, an iteration that stays in the loop leaves the
    direction of the ray as it was. *)
Lemma iteration_reflection_direction st st' :
  iteration intersect elements true st = inl st' ->
  direction (ray st') = direction (ray st).
Proof.
  unfold iteration; cbv zeta.
  destruct (_ || _); [discriminate |].
  destruct (element_at elements (moved st)) as [e |]; [| discriminate].
  unfold visit. destruct e; destruct (intersect _ _); try discriminate;
    intros [= <-]; reflexivity.
Qed.

Lemma state_after_reflection_direction k : forall st st',
  state_after intersect k elements true st = Some st' ->
  direction (ray st') = direction (ray st).
Proof.
  induction k as [| k IH]; intros st st'.
  - simpl. intros [= ->]. reflexivity.
  - rewrite state_after_S.
    destruct (iteration intersect elements true st) as [st1 | r] eqn:It;
      [| discriminate].
    intro H. rewrite (IH _ _ H). apply iteration_reflection_direction, It.
Qed.

(** A loop that is left with success returns the ray of the state it
    was in. *)
Lemma walk_Exited reflection fuel : forall st ray_out,
  walk intersect fuel elements reflection st = Some (Exited ray_out) ->
  exists k st', state_after intersect k elements reflection st = Some st' /\
                ray_out = ray st'.
Proof.
  induction fuel as [| fuel IH]; intros st ray_out; [discriminate |].
  rewrite walk_S.
  destruct (iteration intersect elements reflection st) as [st1 | r] eqn:It.
  - intro H. destruct (IH _ _ H) as (k & st' & Hk & ->).
    exists (S k), st'. rewrite state_after_S, It. auto.
  - intros [= ->]. exists O, st. split; [reflexivity |].
    revert It. unfold iteration; cbv zeta.
    destruct (_ || _); [intros [= <-]; reflexivity |].
    destruct (element_at elements (moved st)) as [e |]; [| intros [= <-]; reflexivity].
    unfold visit. destruct e; destruct (intersect _ _); try discriminate;
      destruct reflection; try discriminate;
      destruct (refract _ _ _ _); discriminate.
Qed.

End Iteration.

(** A call whose rays keep their heading leaves the loop in iteration
    [n + 1] at the latest, for [n] elements. *)
Lemma walk_ends_when_heading_kept intersect elements reflection ray_in :
  keeps_heading intersect elements reflection ray_in ->
  exists r, raytrace intersect (S (List.length elements)) elements ray_in reflection = Some r.
Proof.
  intro Hk. unfold raytrace.
  destruct (walk intersect (S (List.length elements)) elements reflection
              (start elements ray_in)) as [r |] eqn:W; [eauto |].
  exfalso. apply walk_None_state_after in W. destruct W as [st' Hst].
  destruct (state_after_index intersect elements reflection (toward_image ray_in)
              _ _ _ Hk Hst) as [Hi Hr].
  specialize (Hr (Nat.neq_succ_0 _)).
  unfold start in Hi; simpl in Hi.
  destruct (toward_image ray_in); lia.
Qed.

Lemma reflection_keeps_heading intersect elements ray_in :
  keeps_heading intersect elements true ray_in.
Proof.
  intros k st H. apply state_after_reflection_direction in H.
  unfold toward_image. simpl in H. rewrite H. reflexivity.
Qed.

(* ================================================================== *)
(** ** Runs on the sample stacks *)

(** A way to establish the value of [refract] from the value of
    [cosThetaT]. *)
Lemma refract_eq (wi n : Vec3) (ior1 ior2 s c : R) (wt : Vec3) :
  sin2ThetaT wi n ior1 ior2 = s ->
  s < 1 -> 0 <= c -> c * c = 1 - s ->
  wt = (ior1 / ior2 *v (- wi) + (ior1 / ior2 * dot wi n - c) *v n)%vec ->
  refract wi n ior1 ior2 = Some wt.
Proof.
  intros Hs Hlt Hc Hcc ->. unfold refract; cbv zeta. rewrite Hs.
  destruct (Rge_dec s 1) as [G | _]; [lra |].
  rewrite <- Hcc, sqrt_square by exact Hc. reflexivity.
Qed.

Ltac decide_heading :=
  repeat match goal with
         | |- context [Rgt_dec ?a ?b] =>
             destruct (Rgt_dec a b); [ try (exfalso; lra) | try (exfalso; lra) ]
         end.

Ltac run_iteration :=
  unfold iteration, visit, next_ior, element_at, toward_image; simpl;
  repeat (progress decide_heading; simpl).

Module SampleRuns.
Import Samples.

Lemma oblique_step_1 :
  iteration (facet_intersect tilted_normal) stop_then_lens false
            (start stop_then_lens oblique_ray)
  = inl (mkWalk 0 oblique_ray 1).
Proof.
  unfold start. run_iteration. reflexivity.
Qed.

Lemma oblique_refraction :
  refract (- direction oblique_ray)%vec tilted_normal 1 1.6
  = Some (mkVec3 0.96 0 (-0.28)).
Proof.
  apply refract_eq with (s := 0.36) (c := 0.8); try lra.
  - unfold sin2ThetaT, dot; simpl. rewrite Rmax_right by lra. lra.
  - apply Vec3_eq; unfold dot; simpl; lra.
Qed.

Lemma oblique_step_2 :
  iteration (facet_intersect tilted_normal) stop_then_lens false
            (mkWalk 0 oblique_ray 1)
  = inl (mkWalk 1 (mkRay (origin oblique_ray) (mkVec3 0.96 0 (-0.28))) 1.6).
Proof.
  run_iteration.
  change (refract _ _ _ _) with (refract (- direction oblique_ray)%vec tilted_normal 1 1.6).
  rewrite oblique_refraction. reflexivity.
Qed.

Lemma oblique_step_3 :
  iteration (facet_intersect tilted_normal) stop_then_lens false
            (mkWalk 1 (mkRay (origin oblique_ray) (mkVec3 0.96 0 (-0.28))) 1.6)
  = inl (mkWalk 0 (mkRay (origin oblique_ray) (mkVec3 0.96 0 (-0.28))) 1).
Proof.
  run_iteration. reflexivity.
Qed.

Lemma oblique_step_4 :
  iteration (facet_intersect tilted_normal) stop_then_lens false
            (mkWalk 0 (mkRay (origin oblique_ray) (mkVec3 0.96 0 (-0.28))) 1)
  = inr (Exited (mkRay (origin oblique_ray) (mkVec3 0.96 0 (-0.28)))).
Proof.
  run_iteration. reflexivity.
Qed.

Lemma axial_refraction (ior1 ior2 : R) :
  ior2 <> 0 ->
  refract (- direction axial_ray)%vec facing ior1 ior2 = Some (mkVec3 0 0 1).
Proof.
  intro H. apply refract_eq with (s := 0) (c := 1); try lra.
  - unfold sin2ThetaT, dot, facing; simpl. rewrite Rmax_left by lra. ring.
  - apply Vec3_eq; unfold dot, facing; simpl; field; exact H.
Qed.

Lemma axial_step_1 :
  iteration (facet_intersect facing) biconvex false (start biconvex axial_ray)
  = inl (mkWalk 0 axial_ray 1.5).
Proof.
  unfold start. run_iteration.
  change (refract _ _ _ _) with (refract (- direction axial_ray)%vec facing 1 1.5).
  rewrite axial_refraction by lra. reflexivity.
Qed.

Lemma axial_step_2 :
  iteration (facet_intersect facing) biconvex false (mkWalk 0 axial_ray 1.5)
  = inl (mkWalk 1 axial_ray 1).
Proof.
  run_iteration.
  change (refract _ _ _ _) with (refract (- direction axial_ray)%vec facing 1.5 1).
  rewrite axial_refraction by lra. reflexivity.
Qed.

Lemma axial_step_3 :
  iteration (facet_intersect facing) biconvex false (mkWalk 1 axial_ray 1)
  = inr (Exited axial_ray).
Proof.
  run_iteration. reflexivity.
Qed.

End SampleRuns.

(* ================================================================== *)
(** ** Termination of raytrace *)

Section Heading.

Variable intersect : LensElement -> Ray -> option Hit.
Variable elements : list LensElement.
Variable reflection : bool.

Lemma heading_kept_at_exit (h : bool) st r :
  toward_image (ray st) = h ->
  iteration intersect elements reflection st = inr r ->
  forall k st', state_after intersect k elements reflection st = Some st' ->
                toward_image (ray st') = h.
Proof.
  intros Hh It [| k] st'.
  - simpl. intros [= <-]. exact Hh.
  - rewrite state_after_S, It. discriminate.
Qed.

Lemma heading_kept_at_step (h : bool) st st1 :
  toward_image (ray st) = h ->
  iteration intersect elements reflection st = inl st1 ->
  (forall k st', state_after intersect k elements reflection st1 = Some st' ->
                 toward_image (ray st') = h) ->
  forall k st', state_after intersect k elements reflection st = Some st' ->
                toward_image (ray st') = h.
Proof.
  intros Hh It Hrest [| k] st'.
  - simpl. intros [= <-]. exact Hh.
  - rewrite state_after_S, It. apply Hrest.
Qed.

End Heading.

Lemma axial_ray_keeps_heading :
  keeps_heading (Samples.facet_intersect Samples.facing) Samples.biconvex false
                Samples.axial_ray.
Proof.
  assert (Hh : forall r, direction r = mkVec3 0 0 1 -> toward_image r = true).
  { intros r E. apply toward_image_true. rewrite E. simpl. lra. }
  unfold keeps_heading. rewrite (Hh Samples.axial_ray eq_refl).
  eapply heading_kept_at_step;
    [apply Hh; reflexivity | apply SampleRuns.axial_step_1 |].
  eapply heading_kept_at_step;
    [apply Hh; reflexivity | apply SampleRuns.axial_step_2 |].
  eapply heading_kept_at_exit;
    [apply Hh; reflexivity | apply SampleRuns.axial_step_3].
Qed.

(** An oblique ray that passes the stop, is bent back at the lens surface
    behind it and passes the stop again: with two elements in the stack
    the loop is still running after three iterations and is left in the
    fourth. *)
Lemma oblique_ray_visits_stop_twice :
  List.length Samples.stop_then_lens = 2%nat /\
  raytrace (Samples.facet_intersect Samples.tilted_normal) 3
           Samples.stop_then_lens Samples.oblique_ray false = None /\
  raytrace (Samples.facet_intersect Samples.tilted_normal) 4
           Samples.stop_then_lens Samples.oblique_ray false
  = Some (Exited (mkRay (origin Samples.oblique_ray) (mkVec3 0.96 0 (-0.28)))).
Proof.
  split; [reflexivity |]. unfold raytrace.
  split.
  - rewrite walk_S, SampleRuns.oblique_step_1.
    rewrite walk_S, SampleRuns.oblique_step_2.
    rewrite walk_S, SampleRuns.oblique_step_3.
    reflexivity.
  - rewrite walk_S, SampleRuns.oblique_step_1.
    rewrite walk_S, SampleRuns.oblique_step_2.
    rewrite walk_S, SampleRuns.oblique_step_3.
    rewrite walk_S, SampleRuns.oblique_step_4.
    reflexivity.
Qed.

(** C1, amended: a call of [raytrace] whose rays keep the heading of the
    input ray (the test [direction.z() > 0] never changes its answer during
    the walk) leaves the loop in iteration [n + 1] at the latest, for a
    stack of [n] elements, hence after visiting at most [n] elements, and
    ends in exactly one of: exit past an end of the stack, blocked at an
    aperture, missed lens surface, total internal reflection. *)
Theorem raytrace_ends_when_heading_kept
    (intersect : LensElement -> Ray -> option Hit)
    (elements : list LensElement) (ray_in : Ray) (reflection : bool) :
  keeps_heading intersect elements reflection ray_in ->
  exists r,
    raytrace intersect (S (List.length elements)) elements ray_in reflection = Some r /\
    (forall fuel r',
        raytrace intersect fuel elements ray_in reflection = Some r' -> r' = r) /\
    ((exists ray_out, r = Exited ray_out) \/ r = BlockedAtAperture \/
     r = MissedLens \/ r = TotalInternalReflection).
Proof.
  intro Hk.
  destruct (walk_ends_when_heading_kept _ _ _ _ Hk) as [r Hr].
  exists r. split; [exact Hr | split].
  - intros fuel r' Hr'. unfold raytrace in *.
    eapply walk_deterministic; eassumption.
  - destruct r; eauto.
Qed.

Lemma raytrace_ends_when_heading_kept_witness :
  exists r,
    raytrace (Samples.facet_intersect Samples.facing) 3 Samples.biconvex
             Samples.axial_ray false = Some r /\
    (forall fuel r',
        raytrace (Samples.facet_intersect Samples.facing) fuel Samples.biconvex
                 Samples.axial_ray false = Some r' -> r' = r) /\
    ((exists ray_out, r = Exited ray_out) \/ r = BlockedAtAperture \/
     r = MissedLens \/ r = TotalInternalReflection).
Proof.
  exact (raytrace_ends_when_heading_kept
           (Samples.facet_intersect Samples.facing) Samples.biconvex
           Samples.axial_ray false axial_ray_keeps_heading).
Defined.

(** Refraction of a ray on the axis at a normal on the axis: the ray
    leaves against the normal, whichever side it came from. *)
Lemma refract_on_axis (wi n : Vec3) (ior1 ior2 w : R) :
  vx wi = 0 -> vy wi = 0 -> vx n = 0 -> vy n = 0 ->
  vz wi * vz wi = 1 -> vz n * vz n = 1 -> ior2 <> 0 -> w = - vz n ->
  refract wi n ior1 ior2 = Some (mkVec3 0 0 w).
Proof.
  intros Hx Hy Hnx Hny Hz Hnz Hi ->.
  assert (Hd : dot wi n = vz wi * vz n) by (unfold dot; rewrite Hx, Hy; ring).
  assert (Hdd : dot wi n * dot wi n = 1).
  { rewrite Hd. replace (vz wi * vz n * (vz wi * vz n))
      with ((vz wi * vz wi) * (vz n * vz n)) by ring.
    rewrite Hz, Hnz. ring. }
  apply refract_eq with (s := 0) (c := 1); try lra.
  - unfold sin2ThetaT; cbv zeta. rewrite Hdd, Rmax_left by lra. ring.
  - apply Vec3_eq; simpl; rewrite ?Hx, ?Hy, ?Hnx, ?Hny, ?Hd.
    + field; exact Hi.
    + field; exact Hi.
    + replace (ior1 / ior2 * - vz wi + (ior1 / ior2 * (vz wi * vz n) - 1) * vz n)
        with (ior1 / ior2 * vz wi * (vz n * vz n - 1) - vz n) by (field; exact Hi).
      rewrite Hnz. ring.
Qed.

Module PingPong.
Import Samples.

(** The two states between which the walk alternates. *)
Local Abbreviation at_back :=
  (mkWalk 1 (mkRay (mkVec3 0 0 (-0.05)) (mkVec3 0 0 (-1))) 1).
Local Abbreviation at_front :=
  (mkWalk 0 (mkRay (mkVec3 0 0 (-0.055)) (mkVec3 0 0 1)) 1).

Ltac refract_on_axis_with w :=
  match goal with
  | |- context [refract ?wi ?n ?i1 ?i2] =>
      rewrite (refract_on_axis wi n i1 i2 w) by (simpl; lra)
  end.

Lemma enter :
  iteration vertex_intersect biconvex false (start biconvex axial_ray)
  = inl (mkWalk 0 (mkRay (mkVec3 0 0 (-0.055)) (mkVec3 0 0 1)) 1.5).
Proof.
  unfold start. run_iteration. refract_on_axis_with 1. reflexivity.
Qed.

Lemma first_turn :
  iteration vertex_intersect biconvex false
            (mkWalk 0 (mkRay (mkVec3 0 0 (-0.055)) (mkVec3 0 0 1)) 1.5)
  = inl at_back.
Proof.
  run_iteration. refract_on_axis_with (-1). reflexivity.
Qed.

Lemma turn_at_front :
  iteration vertex_intersect biconvex false at_back = inl at_front.
Proof.
  run_iteration. refract_on_axis_with 1. reflexivity.
Qed.

Lemma turn_at_back :
  iteration vertex_intersect biconvex false at_front = inl at_back.
Proof.
  run_iteration. refract_on_axis_with (-1). reflexivity.
Qed.

Lemma alternates fuel :
  walk vertex_intersect fuel biconvex false at_back = None /\
  walk vertex_intersect fuel biconvex false at_front = None.
Proof.
  induction fuel as [| fuel [IHb IHf]]; [split; reflexivity |].
  rewrite !walk_S, turn_at_front, turn_at_back. split; assumption.
Qed.

End PingPong.

(** When the intersection test reports the outward normal of the sphere
    whichever way the ray travels, the axial ray is turned round at the
    second surface of a biconvex lens and again at the first, and the
    loop of [raytrace] is never left. *)
Lemma raytrace_can_run_forever (fuel : nat) :
  raytrace Samples.vertex_intersect fuel Samples.biconvex Samples.axial_ray false
  = None.
Proof.
  unfold raytrace. destruct fuel as [| [| fuel]]; try reflexivity.
  - rewrite walk_S, PingPong.enter. reflexivity.
  - rewrite walk_S, PingPong.enter, walk_S, PingPong.first_turn.
    apply PingPong.alternates.
Qed.

(* ================================================================== *)
(** ** The aperture branch *)



(* ================================================================== *)
(** ** The lens branch *)

(** A single lens surface and a ray toward the image side: [raytrace]
    refracts into the glass of that surface, of index [1.5], while the
    element adjacent in the direction of travel does not exist, which the
    specification words as [1.0]. *)
Lemma next_ior_is_not_adjacent_lens_ior :
  next_ior Samples.single_lens 0 Samples.axial_ray = 1.5 /\
  adjacent_lens_ior Samples.single_lens 0 Samples.axial_ray = 1 /\
  state_after (Samples.facet_intersect Samples.facing) 1 Samples.single_lens false
              (start Samples.single_lens Samples.axial_ray)
  = Some (mkWalk 0 Samples.axial_ray 1.5).
Proof.
  assert (H : toward_image Samples.axial_ray = true)
    by (apply toward_image_true; simpl; lra).
  repeat split.
  - rewrite next_ior_cases, H. reflexivity.
  - unfold adjacent_lens_ior. rewrite H. reflexivity.
  - rewrite state_after_S. unfold start. run_iteration.
    change (refract _ _ _ _)
      with (refract (- direction Samples.axial_ray)%vec Samples.facing 1 1.5).
    rewrite SampleRuns.axial_refraction by lra. reflexivity.
Qed.

(** C3, amended: when the walk of [raytrace] comes to a [Lens], the index
    of refraction of the medium the ray is about to enter is, for a ray
    travelling toward the image side ([direction.z() > 0]), the [ior] of
    that lens itself, and for a ray travelling toward the object side, the
    [ior] of the element before it in the stack when that element exists
    and is a [Lens], else [1.0]; this [next_ior] is the [ior2] of the
    refraction and becomes the tracked index after a successful
    refraction. *)
Theorem lens_refracts_into_next_ior
    (intersect : LensElement -> Ray -> option Hit)
    (elements : list LensElement) (ray_in : Ray)
    (k : nat) (st : WalkState) (i : N) (a t z0 c n : R) :
  let element_index :=
    (element_index st + (if toward_image (ray st) then 1 else -1))%Z in
  state_after intersect k elements false (start elements ray_in) = Some st ->
  element_at elements element_index = Some (Lens i a t z0 c n) ->
  next_ior elements element_index (ray st) =
    (if toward_image (ray st) then n
     else match element_at elements (element_index - 1) with
          | Some e => match lens_ior e with Some m => m | None => 1 end
          | None => 1
          end) /\
  forall res, intersect (Lens i a t z0 c n) (ray st) = Some res ->
    match refract (- direction (ray st))%vec (hitNormal res) (ior st)
                  (next_ior elements element_index (ray st)) with
    | None =>
        forall fuel, (k < fuel)%nat ->
          raytrace intersect fuel elements ray_in false = Some TotalInternalReflection
    | Some next_direction =>
        state_after intersect (S k) elements false (start elements ray_in)
        = Some (mkWalk element_index (mkRay (hitPos res) next_direction)
                       (next_ior elements element_index (ray st)))
    end.
Proof.
  intros idx Hst He. split.
  - rewrite next_ior_cases.
    destruct (toward_image (ray st)); [rewrite He |]; reflexivity.
  - intros res Hres.
    pose proof (iteration_at intersect elements false st _ He) as It.
    unfold visit in It. fold idx in It. rewrite Hres in It.
    destruct (refract _ _ _ _) as [d |].
    + rewrite (state_after_last _ _ _ _ _ _ Hst), It. reflexivity.
    + intros fuel Hf. unfold raytrace.
      replace fuel with (k + S (fuel - S k))%nat by lia.
      rewrite (state_after_plus _ _ _ _ _ _ _ Hst), walk_S, It. reflexivity.
Qed.

Lemma lens_refracts_into_next_ior_witness :
  next_ior Samples.single_lens 0 Samples.axial_ray = 1.5 /\
  state_after (Samples.facet_intersect Samples.facing) 1 Samples.single_lens false
              (start Samples.single_lens Samples.axial_ray)
  = Some (mkWalk 0 (mkRay (origin Samples.axial_ray) (mkVec3 0 0 1)) 1.5).
Proof.
  assert (H : toward_image Samples.axial_ray = true)
    by (apply toward_image_true; simpl; lra).
  pose proof (lens_refracts_into_next_ior
                (Samples.facet_intersect Samples.facing) Samples.single_lens
                Samples.axial_ray 0 (start Samples.single_lens Samples.axial_ray)
                0%N 0.01 0.005 (-0.005) 0.05 1.5 eq_refl) as W.
  unfold start in W. simpl in W. rewrite H in W.
  destruct (W eq_refl) as [Hn Hr]. simpl in Hn.
  split; [exact Hn |].
  specialize (Hr _ eq_refl). simpl in Hr. rewrite Hn in Hr.
  change (refract _ _ _ _)
    with (refract (- direction Samples.axial_ray)%vec Samples.facing 1 1.5) in Hr.
  rewrite SampleRuns.axial_refraction in Hr by lra.
  unfold start. rewrite H. exact Hr.
Defined.

(* ================================================================== *)
(** ** The reflection flag *)

Lemma walk_reflection_succeeds intersect elements fuel : forall st r,
  (forall e ray, In e elements -> intersect e ray <> None) ->
  walk intersect fuel elements true st = Some r ->
  exists ray_out, r = Exited ray_out.
Proof.
  induction fuel as [| fuel IH]; intros st r Hall; [discriminate |].
  rewrite walk_S.
  destruct (iteration intersect elements true st) as [st1 | r1] eqn:It.
  - apply IH, Hall.
  - intros [= <-]. revert It. unfold iteration; cbv zeta.
    destruct (_ || _); [intros [= <-]; eauto |].
    match goal with |- context [element_at elements ?j] =>
      destruct (element_at elements j) as [e |] eqn:E end;
      [| intros [= <-]; eauto].
    assert (Hin : In e elements).
    { unfold element_at in E. destruct (_ <? 0)%Z; [discriminate |].
      eapply nth_error_In, E. }
    unfold visit.
    destruct e; (destruct (intersect _ _) eqn:Hi;
                 [discriminate | exfalso; eapply Hall; eassumption]).
Qed.

(** C10: with [reflection = true], a [Lens] whose intersection test
    succeeds is passed without effect: the walk goes on at that element
    with the same ray (origin and direction) and the same tracked index of
    refraction.  Such a call leaves the loop within [n + 1] iterations,
    the direction of a returned ray is the direction of the input ray, and
    the call succeeds when no intersection test on its way fails. *)
Theorem reflection_passes_lenses_unchanged
    (intersect : LensElement -> Ray -> option Hit)
    (elements : list LensElement) (ray_in : Ray) :
  (forall k st i a t z0 c n res,
      state_after intersect k elements true (start elements ray_in) = Some st ->
      element_at elements
        (element_index st + (if toward_image (ray st) then 1 else -1))%Z
        = Some (Lens i a t z0 c n) ->
      intersect (Lens i a t z0 c n) (ray st) = Some res ->
      state_after intersect (S k) elements true (start elements ray_in)
      = Some (mkWalk
                (element_index st + (if toward_image (ray st) then 1 else -1))%Z
                (ray st) (ior st))) /\
  (exists r,
      raytrace intersect (S (List.length elements)) elements ray_in true = Some r /\
      (forall ray_out, r = Exited ray_out -> direction ray_out = direction ray_in) /\
      ((forall e ray, In e elements -> intersect e ray <> None) ->
       exists ray_out, r = Exited ray_out)).
Proof.
  split.
  - intros k st i a t z0 c n res Hst He Hres.
    pose proof (iteration_at intersect elements true st _ He) as It.
    unfold visit in It. rewrite Hres in It.
    rewrite (state_after_last _ _ _ _ _ _ Hst), It. reflexivity.
  - destruct (walk_ends_when_heading_kept intersect elements true ray_in
                (reflection_keeps_heading intersect elements ray_in)) as [r Hr].
    exists r. split; [exact Hr | split].
    + intros ray_out ->. unfold raytrace in Hr.
      apply walk_Exited in Hr. destruct Hr as (k & st' & Hk & ->).
      apply state_after_reflection_direction in Hk. exact Hk.
    + intro Hall. unfold raytrace in Hr.
      eapply walk_reflection_succeeds; eassumption.
Qed.

(** A call with [reflection = true] on a single lens surface: it
    succeeds and returns the input ray. *)
Lemma reflection_returns_input_ray :
  raytrace (Samples.facet_intersect Samples.facing) 2 Samples.single_lens
           Samples.axial_ray true
  = Some (Exited Samples.axial_ray).
Proof.
  unfold raytrace, start.
  rewrite walk_S. run_iteration. run_iteration. reflexivity.
Qed.

(* ================================================================== *)
(** ** Axial placement *)

Lemma thickness_set_z e v : thickness (set_z e v) = thickness e.
Proof. destruct e; reflexivity. Qed.

Lemma index_set_z e v : index (set_z e v) = index e.
Proof. destruct e; reflexivity. Qed.

Lemma z_set_z e v : z (set_z e v) = v.
Proof. destruct e; reflexivity. Qed.

Lemma assign_z_backward_app l1 : forall length l2,
  assign_z_backward length (l1 ++ l2) =
  assign_z_backward length l1 ++
  assign_z_backward (fold_left (fun s e => s + thickness e) l1 length) l2.
Proof.
  induction l1 as [| e l1 IH]; intros length l2; simpl; [reflexivity |].
  rewrite IH. reflexivity.
Qed.

Lemma sum_thickness_rev l :
  fold_left (fun s e => s + thickness e) (rev l) 0 = sum_thickness l.
Proof.
  unfold sum_thickness. rewrite <- fold_left_rev_right, rev_involutive. reflexivity.
Qed.

(** The loop seen from the front of the vector: the first element is
    placed at minus the sum of all thicknesses, the others as they are
    placed without it. *)
Lemma assign_z_cons e l :
  assign_z (e :: l) = set_z e (- sum_thickness (e :: l)) :: assign_z l.
Proof.
  unfold assign_z. simpl rev. rewrite assign_z_backward_app, rev_app_distr.
  simpl. rewrite sum_thickness_rev. reflexivity.
Qed.

Lemma sum_thickness_assign_z l : sum_thickness (assign_z l) = sum_thickness l.
Proof.
  induction l as [| e l IH]; [reflexivity |].
  rewrite assign_z_cons. simpl. simpl in IH. unfold sum_thickness in *.
  rewrite IH, thickness_set_z. reflexivity.
Qed.

Lemma assign_z_length l : List.length (assign_z l) = List.length l.
Proof.
  induction l as [| e l IH]; [reflexivity |].
  rewrite assign_z_cons. simpl. congruence.
Qed.

Lemma assign_z_sum l : forall i e,
  nth_error (assign_z l) i = Some e ->
  z e = - sum_thickness (skipn i (assign_z l)).
Proof.
  induction l as [| x l IH]; intros i e.
  - destruct i; discriminate.
  - rewrite assign_z_cons. destruct i as [| i]; simpl.
    + intros [= <-]. rewrite z_set_z, thickness_set_z.
      f_equal. f_equal. symmetry. apply sum_thickness_assign_z.
    + apply IH.
Qed.

Lemma skipn_nth_error {A} (l : list A) : forall i a,
  nth_error l i = Some a -> skipn i l = a :: skipn (S i) l.
Proof.
  induction l as [| x l IH]; intros [| i] a; simpl; try discriminate.
  - intros [= ->]. reflexivity.
  - intro H. rewrite (IH _ _ H). reflexivity.
Qed.

Lemma z_chain_of_sums l :
  (forall i e, nth_error l i = Some e -> z e = - sum_thickness (skipn i l)) ->
  z_chain l.
Proof.
  intro Hsum. split; [| split]; [| | exact Hsum].
  - intros i a b Ha Hb.
    rewrite (Hsum _ _ Ha), (Hsum _ _ Hb), (skipn_nth_error _ _ _ Ha).
    simpl. lra.
  - intros e He. rewrite (Hsum _ _ He), (skipn_nth_error _ _ _ He).
    assert (Hlen : (List.length l <> 0)%nat).
    { destruct l; [destruct (pred _); discriminate | discriminate]. }
    rewrite skipn_all2 by lia. simpl. lra.
Qed.

Lemma assign_z_chain l : z_chain (assign_z l).
Proof. apply z_chain_of_sums, assign_z_sum. Qed.

Lemma assign_z_In l x :
  In x (assign_z l) -> exists y v, In y l /\ x = set_z y v.
Proof.
  induction l as [| e l IH]; [intros [] |].
  rewrite assign_z_cons. intros [<- | H].
  - eexists _, _. split; [left; reflexivity | reflexivity].
  - destruct (IH H) as (y & v & Hy & ->). eexists _, _. split; [right; exact Hy | reflexivity].
Qed.

Lemma assign_z_sorted l :
  StronglySorted (fun a b => (index a <= index b)%N) l ->
  StronglySorted (fun a b => (index a <= index b)%N) (assign_z l).
Proof.
  induction 1 as [| e l Hs IH He]; [constructor |].
  rewrite assign_z_cons. constructor; [exact IH |].
  rewrite Forall_forall in *. intros x Hx.
  destruct (assign_z_In _ _ Hx) as (y & v & Hy & ->).
  rewrite !index_set_z. apply He, Hy.
Qed.

Lemma computeCardinalPoints_elements intersect fuel sys b sys' :
  computeCardinalPoints intersect fuel sys = Some (b, sys') ->
  elements sys' = elements sys.
Proof.
  unfold computeCardinalPoints.
  destruct (elements sys) as [| front rest] eqn:El; [discriminate |].
  destruct (raytrace _ _ _ _ _) as [[ray_out | | |] |]; try discriminate;
    try (intros [= _ <-]; simpl; congruence).
  simpl elements.
  destruct (raytrace _ _ _ _ _) as [[ray_out2 | | |] |]; try discriminate;
    intros [= _ <-]; simpl; congruence.
Qed.

Lemma set_z_without_z e v : set_z (without_z e) v = set_z e v.
Proof. destruct e; reflexivity. Qed.

Lemma without_z_set_z e v : without_z (set_z e v) = without_z e.
Proof. destruct e; reflexivity. Qed.

Lemma thickness_without_z e : thickness (without_z e) = thickness e.
Proof. destruct e; reflexivity. Qed.

Lemma sum_thickness_without_z l : sum_thickness (map without_z l) = sum_thickness l.
Proof.
  unfold sum_thickness. induction l as [| e l IH]; simpl; [reflexivity |].
  rewrite IH, thickness_without_z. reflexivity.
Qed.

Lemma assign_z_without_z l : assign_z (map without_z l) = assign_z l.
Proof.
  induction l as [| e l IH]; [reflexivity |].
  change (map without_z (e :: l)) with (without_z e :: map without_z l).
  rewrite !assign_z_cons, IH, set_z_without_z.
  change (without_z e :: map without_z l) with (map without_z (e :: l)).
  rewrite sum_thickness_without_z. reflexivity.
Qed.

Lemma without_z_assign_z l : map without_z (assign_z l) = map without_z l.
Proof.
  induction l as [| e l IH]; [reflexivity |].
  rewrite assign_z_cons. simpl. rewrite IH, without_z_set_z. reflexivity.
Qed.

(** The two probe rays of [computeCardinalPoints] pass a stack that is
    one flat aperture stop whose radius is at least the probe height. *)
Lemma single_stop_probes (i : N) (a t z0 : R) :
  height <= a ->
  (exists p,
      raytrace Samples.flat_intersect 2 [Aperture i a t z0]
               (object_probe (Aperture i a t z0)) false
      = Some (Exited (mkRay p (mkVec3 0 0 1)))) /\
  (exists p,
      raytrace Samples.flat_intersect 2 [Aperture i a t z0] image_probe false
      = Some (Exited (mkRay p (mkVec3 0 0 (-1))))).
Proof.
  unfold height. intro Ha.
  assert (H1 : forall o, toward_image (mkRay o (mkVec3 0 0 1)) = true)
    by (intro o; apply toward_image_true; simpl; lra).
  assert (H2 : forall o, toward_image (mkRay o (mkVec3 0 0 (-1))) = false)
    by (intro o; apply toward_image_false; simpl; lra).
  split.
  - unfold raytrace, start, object_probe. rewrite H1, walk_S.
    unfold iteration; cbv zeta. simpl ray. rewrite H1. simpl.
    unfold Samples.flat_intersect; simpl.
    destruct (Rgt_dec _ _) as [G | _]; [exfalso; unfold height in G; nra |].
    rewrite H1. simpl. unfold iteration; cbv zeta. simpl ray. rewrite H1. simpl.
    eexists. reflexivity.
  - unfold raytrace, start, image_probe. rewrite H2, walk_S.
    unfold iteration; cbv zeta. simpl ray. rewrite H2. simpl.
    unfold Samples.flat_intersect; simpl.
    destruct (Rgt_dec _ _) as [G | _]; [exfalso; unfold height in G; nra |].
    rewrite H2. simpl. unfold iteration; cbv zeta. simpl ray. rewrite H2. simpl.
    eexists. reflexivity.
Qed.

(** An iteration at a flat lens surface for a ray parallel to the axis at
    the probe height: the ray is moved to the surface and goes on
    unbent. *)
Lemma flat_lens_iteration (elements : list LensElement) (idx0 d : Z)
    (oz w ior0 : R) (i : N) (a t z0 c n : R) :
  (w = 1 /\ d = 1%Z) \/ (w = -1 /\ d = (-1)%Z) ->
  height <= a ->
  element_at elements (idx0 + d) = Some (Lens i a t z0 c n) ->
  next_ior elements (idx0 + d)
           (mkRay (mkVec3 0 height oz) (mkVec3 0 0 w)) <> 0 ->
  iteration Samples.flat_intersect elements false
            (mkWalk idx0 (mkRay (mkVec3 0 height oz) (mkVec3 0 0 w)) ior0)
  = inl (mkWalk (idx0 + d)
                (mkRay (mkVec3 0 height z0) (mkVec3 0 0 w))
                (next_ior elements (idx0 + d)
                          (mkRay (mkVec3 0 height oz) (mkVec3 0 0 w)))).
Proof.
  intros Hw Ha He Hn.
  assert (Ht : (if toward_image (mkRay (mkVec3 0 height oz) (mkVec3 0 0 w))
                then 1 else -1)%Z = d).
  { destruct Hw as [[-> ->] | [-> ->]].
    - rewrite toward_image_true by (simpl; lra). reflexivity.
    - rewrite toward_image_false by (simpl; lra). reflexivity. }
  assert (Hm : (element_index
                  (mkWalk idx0 (mkRay (mkVec3 0 height oz) (mkVec3 0 0 w)) ior0) +
                (if toward_image
                      (ray (mkWalk idx0 (mkRay (mkVec3 0 height oz) (mkVec3 0 0 w)) ior0))
                 then 1 else -1))%Z = (idx0 + d)%Z).
  { simpl element_index. simpl ray. rewrite Ht. reflexivity. }
  rewrite (iteration_at Samples.flat_intersect elements false _
             (Lens i a t z0 c n)) by (rewrite Hm; exact He).
  rewrite Hm. unfold visit. simpl ray. simpl ior.
  unfold Samples.flat_intersect. simpl.
  destruct (Rgt_dec _ _) as [G | _]; [exfalso; unfold height in *; nra |].
  set (nz := if toward_image (mkRay (mkVec3 0 height oz) (mkVec3 0 0 w))
             then -1 else 1).
  assert (Hnz : nz = - w).
  { unfold nz. destruct Hw as [[-> _] | [-> _]].
    - rewrite toward_image_true by (simpl; lra). lra.
    - rewrite toward_image_false by (simpl; lra). lra. }
  rewrite (refract_on_axis _ _ _ _ w); simpl; try lra;
    try (rewrite Hnz; destruct Hw as [[-> _] | [-> _]]; lra);
    try (destruct Hw as [[-> _] | [-> _]]; lra); try exact Hn.
  f_equal. f_equal. f_equal.
  apply Vec3_eq; simpl; try lra.
  destruct Hw as [[-> _] | [-> _]]; field.
Qed.

(** The two probe rays of [computeCardinalPoints] pass a stack of two
    flat lens surfaces whose radii are at least the probe height. *)
Lemma flat_pair_probes (i1 i2 : N) (a1 t1 z1 c1 n1 a2 t2 z2 c2 n2 : R) :
  height <= a1 -> height <= a2 -> 0 < n1 -> 0 < n2 ->
  raytrace Samples.flat_intersect 3
           [Lens i1 a1 t1 z1 c1 n1; Lens i2 a2 t2 z2 c2 n2]
           (object_probe (Lens i1 a1 t1 z1 c1 n1)) false
  = Some (Exited (mkRay (mkVec3 0 height z2) (mkVec3 0 0 1))) /\
  raytrace Samples.flat_intersect 3
           [Lens i1 a1 t1 z1 c1 n1; Lens i2 a2 t2 z2 c2 n2]
           image_probe false
  = Some (Exited (mkRay (mkVec3 0 height z1) (mkVec3 0 0 (-1)))).
Proof.
  intros Ha1 Ha2 Hn1 Hn2.
  assert (H1 : forall o, toward_image (mkRay o (mkVec3 0 0 1)) = true)
    by (intro o; apply toward_image_true; simpl; lra).
  assert (H2 : forall o, toward_image (mkRay o (mkVec3 0 0 (-1))) = false)
    by (intro o; apply toward_image_false; simpl; lra).
  split.
  - unfold raytrace, start, object_probe. rewrite H1.
    rewrite walk_S.
    rewrite (flat_lens_iteration _ (-1) 1 _ 1 _ i1 a1 t1 z1 c1 n1);
      [| left; split; reflexivity | exact Ha1 | reflexivity
       | rewrite next_ior_cases, H1; simpl; lra].
    rewrite walk_S.
    rewrite (flat_lens_iteration _ (-1 + 1) 1 _ 1 _ i2 a2 t2 z2 c2 n2);
      [| left; split; reflexivity | exact Ha2 | reflexivity
       | rewrite next_ior_cases, H1; simpl; lra].
    rewrite walk_S, iteration_exit; [reflexivity |].
    simpl. rewrite H1. right. lia.
  - unfold raytrace, start, image_probe. rewrite H2.
    rewrite walk_S.
    rewrite (flat_lens_iteration _ _ (-1) _ (-1) _ i2 a2 t2 z2 c2 n2);
      [| right; split; reflexivity | exact Ha2 | reflexivity
       | rewrite next_ior_cases, H2; simpl; lra].
    rewrite walk_S.
    rewrite (flat_lens_iteration _ _ (-1) _ (-1) _ i1 a1 t1 z1 c1 n1);
      [| right; split; reflexivity | exact Ha1 | reflexivity
       | rewrite next_ior_cases, H2; simpl; lra].
    rewrite walk_S, iteration_exit; [reflexivity |].
    simpl. rewrite H2. left. lia.
Qed.

(** The prescription of two lens surfaces is constructed, as a stack of
    two elements. *)
Lemma doublet_constructed :
  exists sys,
    LensSystem_new Samples.flat_intersect insertion_sort 3 (Some Cases.doublet)
    = Some (Constructed sys) /\
    List.length (elements sys) = 2%nat.
Proof.
  unfold LensSystem_new, loadJSON, Cases.doublet. simpl map.
  unfold element_of_json; cbv zeta. simpl json_curvature_radius.
  destruct (Req_dec_T (-50 * 1e-3) 0) as [E | _]; [exfalso; lra |].
  destruct (Req_dec_T (50 * 1e-3) 0) as [E | _]; [exfalso; lra |].
  simpl insertion_sort. unfold assign_z. simpl rev. simpl assign_z_backward.
  simpl rev. cbv beta iota zeta.
  unfold computeCardinalPoints. simpl elements. cbv beta iota zeta.
  match goal with
  | |- context [object_probe (Lens ?i1 ?a1 ?t1 ?z1 ?c1 ?n1)] =>
    match goal with
    | |- context [[Lens i1 a1 t1 z1 c1 n1; Lens ?i2 ?a2 ?t2 ?z2 ?c2 ?n2]] =>
      destruct (flat_pair_probes i1 i2 a1 t1 z1 c1 n1 a2 t2 z2 c2 n2) as [P1 P2];
        try (unfold height; simpl; lra)
    end
  end.
  rewrite P1. cbv beta iota zeta. simpl elements. rewrite P2.
  eexists. split; reflexivity.
Qed.

Lemma without_z_element_of_json value :
  without_z (element_of_json value) = element_of_json value.
Proof.
  unfold element_of_json; cbv zeta.
  destruct (Req_dec_T (json_curvature_radius value * 1e-3) 0); reflexivity.
Qed.

(** C6: a constructed [LensSystem] holds the loaded prescription: one
    element for every entry, as loaded but for [z], in ascending order of
    index, and at least one.  Every element lies its own thickness before
    the next one, [z(i) = z(i+1) - thickness(i)], the last element ends at
    the origin, [z + thickness = 0], and so [z(i)] is minus the sum of the
    thicknesses of the elements [i] through the last. *)
Theorem constructed_elements_are_placed
    (intersect : LensElement -> Ray -> option Hit)
    (sort : list LensElement -> list LensElement)
    (fuel : nat) (stream : option (list JsonValue)) (sys : LensSystem) :
  sorts_by_index sort ->
  LensSystem_new intersect sort fuel stream = Some (Constructed sys) ->
  (exists items,
      stream = Some items /\
      List.length (elements sys) = List.length items /\
      Permutation (map element_of_json items) (map without_z (elements sys))) /\
  elements sys <> [] /\
  StronglySorted (fun a b => (index a <= index b)%N) (elements sys) /\
  (forall i a b,
      nth_error (elements sys) i = Some a ->
      nth_error (elements sys) (S i) = Some b ->
      z a = z b - thickness a) /\
  (forall e,
      nth_error (elements sys) (pred (List.length (elements sys))) = Some e ->
      z e + thickness e = 0) /\
  (forall i e,
      nth_error (elements sys) i = Some e ->
      z e = - sum_thickness (skipn i (elements sys))).
Proof.
  intros Hsort. unfold LensSystem_new.
  destruct stream as [items |]; simpl loadJSON; cbv beta iota zeta;
    [| discriminate].
  match goal with
  | |- context [computeCardinalPoints ?i ?f ?s] =>
      destruct (computeCardinalPoints i f s) as [[[|] sys'] |] eqn:C
  end; try discriminate.
  intros [= <-].
  assert (Hne : elements sys' <> []).
  { pose proof C as C'. apply computeCardinalPoints_elements in C'.
    rewrite C'. simpl. intro Hnil.
    unfold computeCardinalPoints in C. simpl elements in C.
    rewrite Hnil in C. discriminate. }
  apply computeCardinalPoints_elements in C. simpl in C.
  destruct (loadJSON_sorted sort items Hsort) as [Hp Hs].
  rewrite C in *. split; [| split; [exact Hne | split]].
  - exists items. split; [reflexivity | split].
    + rewrite assign_z_length, <- (Permutation_length Hp), length_map.
      reflexivity.
    + rewrite without_z_assign_z.
      assert (Hw : map without_z (map element_of_json items)
                   = map element_of_json items).
      { rewrite map_map. apply map_ext, without_z_element_of_json. }
      rewrite <- Hw at 1. apply Permutation_map, Hp.
  - apply assign_z_sorted, Hs.
  - apply assign_z_chain.
Qed.

(** The prescription with one aperture stop is constructed. *)
Lemma single_stop_constructed :
  exists sys,
    LensSystem_new Samples.flat_intersect insertion_sort 2 (Some Samples.single_stop)
    = Some (Constructed sys).
Proof.
  unfold LensSystem_new, loadJSON, Samples.single_stop. simpl map.
  unfold element_of_json; cbv zeta. simpl json_curvature_radius.
  destruct (Req_dec_T (0 * 1e-3) 0) as [_ | E]; [| exfalso; lra].
  simpl insertion_sort. unfold assign_z. simpl rev. simpl assign_z_backward.
  simpl rev. cbv beta iota zeta.
  unfold computeCardinalPoints. simpl elements. cbv beta iota zeta.
  match goal with
  | |- context [object_probe (Aperture ?i ?a ?t ?z0)] =>
      destruct (single_stop_probes i a t z0) as [[p1 P1] [p2 P2]];
      [unfold height; simpl; lra |]
  end.
  rewrite P1. cbv beta iota zeta. simpl elements. rewrite P2.
  eexists. reflexivity.
Qed.

Lemma constructed_elements_are_placed_witness :
  exists sys a b,
    LensSystem_new Samples.flat_intersect insertion_sort 3 (Some Cases.doublet)
    = Some (Constructed sys) /\
    elements sys = [a; b] /\
    Permutation (map element_of_json Cases.doublet) [without_z a; without_z b] /\
    (index a <= index b)%N /\
    z a = z b - thickness a /\
    z b + thickness b = 0 /\
    z a = - (0 + thickness b + thickness a).
Proof.
  destruct doublet_constructed as [sys [E L]].
  destruct (constructed_elements_are_placed Samples.flat_intersect insertion_sort 3
              (Some Cases.doublet) sys insertion_sort_sorts E)
    as ((items & Hi & _ & Hp) & _ & Hs & Hc & Hl & Hz).
  injection Hi as <-.
  destruct (elements sys) as [| a [| b [| c rest]]] eqn:El; try discriminate.
  exists sys, a, b. split; [exact E |]. split; [exact El |].
  split; [exact Hp |]. split.
  - inversion Hs as [| ? ? _ Hab]. inversion Hab. assumption.
  - split; [apply (Hc O a b); reflexivity |].
    split; [apply (Hl b); reflexivity |].
    apply (Hz O a). reflexivity.
Defined.

(* ================================================================== *)
(** ** Cardinal points *)

(** C5: [computeCardinalPoints] traces the ray from
    [(0, 0.001, elements.front()->z - 1.0)] in direction [(0, 0, 1)].  When
    that trace fails the call reports failure and leaves the object as it
    was.  When it returns [ray_out], [image_focal_z] is the [z] of
    [ray_out] at [t = -origin.y / direction.y], [image_principal_z] is the
    [z] of [ray_out] at [t = -(origin.y - 0.001) / direction.y], and
    [image_focal_length] is their difference; the call then reports what
    the second trace, from the image side, reports. *)
Theorem computeCardinalPoints_image_side
    (intersect : LensElement -> Ray -> option Hit)
    (fuel : nat) (sys : LensSystem) (front : LensElement) (rest : list LensElement) :
  elements sys = front :: rest ->
  let ray_in := mkRay (mkVec3 0 0.001 (z front - 1)) (mkVec3 0 0 1) in
  match raytrace intersect fuel (elements sys) ray_in false with
  | None => computeCardinalPoints intersect fuel sys = None
  | Some (Exited ray_out) =>
      match raytrace intersect fuel (elements sys)
                     (mkRay (mkVec3 0 0.001 0) (mkVec3 0 0 (-1))) false with
      | None => computeCardinalPoints intersect fuel sys = None
      | Some r =>
          exists sys',
            computeCardinalPoints intersect fuel sys = Some (succeeded r, sys') /\
            image_focal_z sys' =
              vz (ray_at ray_out (- vy (origin ray_out) / vy (direction ray_out))) /\
            image_principal_z sys' =
              vz (ray_at ray_out
                         (- (vy (origin ray_out) - 0.001) / vy (direction ray_out))) /\
            image_focal_length sys' = image_focal_z sys' - image_principal_z sys'
      end
  | Some _ => computeCardinalPoints intersect fuel sys = Some (false, sys)
  end.
Proof.
  intros El ray_in. unfold computeCardinalPoints. rewrite El.
  change (object_probe front) with ray_in.
  destruct (raytrace intersect fuel (front :: rest) ray_in false)
    as [[ray_out | | |] |]; try reflexivity.
  cbv beta iota zeta. simpl elements. rewrite El.
  change image_probe with (mkRay (mkVec3 0 0.001 0) (mkVec3 0 0 (-1))).
  destruct (raytrace intersect fuel (front :: rest) _ false)
    as [[ray_out2 | | |] |]; try reflexivity;
    eexists; (split; [reflexivity |]); simpl; repeat split; reflexivity.
Qed.

Lemma computeCardinalPoints_image_side_witness :
  exists sys',
    computeCardinalPoints Samples.flat_intersect 2 Samples.stop_system
    = Some (true, sys') /\
    image_focal_length sys' = image_focal_z sys' - image_principal_z sys'.
Proof.
  pose proof (computeCardinalPoints_image_side Samples.flat_intersect 2
                Samples.stop_system (Aperture 0 0.005 0.01 (-0.01)) [] eq_refl) as W.
  destruct (single_stop_probes 0 0.005 0.01 (-0.01)) as [[p1 P1] [p2 P2]];
    [unfold height; lra |].
  cbv zeta in W. simpl elements in W.
  change (mkRay (mkVec3 0 0.001 (z (Aperture 0 0.005 0.01 (-0.01)) - 1)) (mkVec3 0 0 1))
    with (object_probe (Aperture 0 0.005 0.01 (-0.01))) in W.
  change (mkRay (mkVec3 0 0.001 0) (mkVec3 0 0 (-1))) with image_probe in W.
  unfold Samples.stop in W. rewrite P1, P2 in W.
  destruct W as (sys' & Hc & _ & _ & Hf).
  exists sys'. split; [exact Hc | exact Hf].
Defined.

(* ------------------------------------------------------------------ *)
(** * Further properties of the code *)

(* ================================================================== *)
(** ** Vectors *)

(** The Cauchy-Schwarz inequality. *)
Lemma dot_sqr_le (a b : Vec3) : dot a b * dot a b <= dot a a * dot b b.
Proof.
  destruct a as [a1 a2 a3], b as [b1 b2 b3]. unfold dot; simpl.
  pose proof (Rle_0_sqr (a1 * b2 - a2 * b1)).
  pose proof (Rle_0_sqr (a1 * b3 - a3 * b1)).
  pose proof (Rle_0_sqr (a2 * b3 - a3 * b2)).
  unfold Rsqr in *. nra.
Qed.

Lemma dot_comm (a b : Vec3) : dot a b = dot b a.
Proof. unfold dot. ring. Qed.

Lemma dot_vneg_l (a b : Vec3) : dot (- a)%vec b = - dot a b.
Proof. unfold dot; simpl. ring. Qed.

Lemma dot_vadd_l (a b c : Vec3) : dot (a + b)%vec c = dot a c + dot b c.
Proof. unfold dot; simpl. ring. Qed.

Lemma dot_vscale_l (k : R) (a b : Vec3) : dot (k *v a)%vec b = k * dot a b.
Proof. unfold dot; simpl. ring. Qed.

(* ================================================================== *)
(** ** reflect, further *)

(** X1: for a unit normal [n], [reflect(v, n)] has the length of [v] and
    the same component along [n]. *)
Theorem reflect_keeps_length_and_normal_part (v n : Vec3) :
  dot n n = 1 ->
  dot (reflect v n) (reflect v n) = dot v v /\
  dot (reflect v n) n = dot v n.
Proof.
  intro Hn.
  assert (H1 : dot (reflect v n) (reflect v n)
               = dot v v + 4 * dot v n * dot v n * (dot n n - 1)).
  { destruct v, n; unfold reflect, dot; simpl; ring. }
  assert (H2 : dot (reflect v n) n = dot v n + 2 * dot v n * (dot n n - 1)).
  { destruct v, n; unfold reflect, dot; simpl; ring. }
  rewrite H1, H2, Hn. split; ring.
Qed.

Lemma reflect_keeps_length_and_normal_part_witness :
  dot (reflect (mkVec3 1 2 3) (mkVec3 0 0 1)) (reflect (mkVec3 1 2 3) (mkVec3 0 0 1))
  = dot (mkVec3 1 2 3) (mkVec3 1 2 3) /\
  dot (reflect (mkVec3 1 2 3) (mkVec3 0 0 1)) (mkVec3 0 0 1)
  = dot (mkVec3 1 2 3) (mkVec3 0 0 1).
Proof.
  apply (reflect_keeps_length_and_normal_part (mkVec3 1 2 3) (mkVec3 0 0 1)).
  unfold dot; simpl; lra.
Defined.

(* ================================================================== *)
(** ** refract, further *)

Lemma refract_Some (wi n : Vec3) (ior1 ior2 : R) (wt : Vec3) :
  refract wi n ior1 ior2 = Some wt ->
  sin2ThetaT wi n ior1 ior2 < 1 /\
  wt = (ior1 / ior2 *v (- wi) +
        (ior1 / ior2 * dot wi n - sqrt (1 - sin2ThetaT wi n ior1 ior2)) *v n)%vec.
Proof.
  unfold refract; cbv zeta.
  destruct (Rge_dec (sin2ThetaT wi n ior1 ior2) 1) as [G | G]; [discriminate |].
  intros [= <-]. split; [lra | reflexivity].
Qed.

Lemma sin2ThetaT_unit (wi n : Vec3) (ior1 ior2 : R) :
  dot wi wi = 1 -> dot n n = 1 ->
  sin2ThetaT wi n ior1 ior2 =
  ior1 / ior2 * (ior1 / ior2) * (1 - dot wi n * dot wi n).
Proof.
  intros Hw Hn. unfold sin2ThetaT; cbv zeta.
  pose proof (dot_sqr_le wi n) as Hcs. rewrite Hw, Hn in Hcs.
  rewrite Rmax_right by lra. reflexivity.
Qed.

Lemma dot_combination (A B : R) (wi n : Vec3) :
  dot (A *v (- wi) + B *v n)%vec (A *v (- wi) + B *v n)%vec
    = A * A * dot wi wi - 2 * A * B * dot wi n + B * B * dot n n /\
  dot (A *v (- wi) + B *v n)%vec n = - A * dot wi n + B * dot n n.
Proof.
  destruct wi, n; unfold dot; simpl; split; ring.
Qed.

(** X2: Snell's law.  For unit vectors [wi] and [n], a direction [wt]
    that [refract] returns is a unit vector, it points away from the side
    of the normal, and the sines of the two angles to the normal are in
    the ratio of the indices: [ior2^2 (1 - dot(wt,n)^2) =
    ior1^2 (1 - dot(wi,n)^2)]. *)
Theorem refract_obeys_snell (wi n : Vec3) (ior1 ior2 : R) (wt : Vec3) :
  dot wi wi = 1 -> dot n n = 1 -> ior2 <> 0 ->
  refract wi n ior1 ior2 = Some wt ->
  dot wt wt = 1 /\
  dot wt n <= 0 /\
  ior2 ^ 2 * (1 - dot wt n ^ 2) = ior1 ^ 2 * (1 - dot wi n ^ 2).
Proof.
  intros Hw Hn Hi Hr. apply refract_Some in Hr. destruct Hr as [Hlt ->].
  set (s := sin2ThetaT wi n ior1 ior2) in *.
  assert (Hs : s = ior1 / ior2 * (ior1 / ior2) * (1 - dot wi n * dot wi n))
    by (apply sin2ThetaT_unit; assumption).
  assert (Hc : sqrt (1 - s) * sqrt (1 - s) = 1 - s) by (apply sqrt_sqrt; lra).
  pose proof (sqrt_pos (1 - s)) as Hp.
  set (cT := sqrt (1 - s)) in *. set (eta := ior1 / ior2) in *.
  set (c := dot wi n) in *.
  destruct (dot_combination eta (eta * c - cT) wi n) as [E1 E2].
  fold c in E1, E2. rewrite E1, E2, Hw, Hn.
  assert (He : ior2 * eta = ior1) by (unfold eta; field; exact Hi).
  split; [| split].
  - nra.
  - lra.
  - replace (- eta * c + (eta * c - cT) * 1) with (- cT) by ring.
    replace (1 - (- cT) ^ 2) with (1 - cT * cT) by ring.
    rewrite Hc.
    replace (1 - (1 - s)) with s by ring. rewrite Hs, <- He. ring.
Qed.

Lemma refract_obeys_snell_witness :
  dot (mkVec3 0.96 0 (-0.28)) (mkVec3 0.96 0 (-0.28)) = 1 /\
  dot (mkVec3 0.96 0 (-0.28)) Samples.tilted_normal <= 0 /\
  1.6 ^ 2 * (1 - dot (mkVec3 0.96 0 (-0.28)) Samples.tilted_normal ^ 2)
  = 1 ^ 2 * (1 - dot (- direction Samples.oblique_ray)%vec Samples.tilted_normal ^ 2).
Proof.
  apply (refract_obeys_snell (- direction Samples.oblique_ray)%vec
           Samples.tilted_normal 1 1.6 (mkVec3 0.96 0 (-0.28))).
  - unfold dot; simpl; lra.
  - unfold dot; simpl; lra.
  - lra.
  - exact SampleRuns.oblique_refraction.
Defined.

(** X3: there is no total internal reflection into the denser medium:
    for [0 < ior1 < ior2], [refract] succeeds for all vectors. *)
Theorem refract_into_denser_medium_succeeds (wi n : Vec3) (ior1 ior2 : R) :
  0 < ior1 -> ior1 < ior2 ->
  exists wt, refract wi n ior1 ior2 = Some wt.
Proof.
  intros H1 H2.
  destruct (refract wi n ior1 ior2) as [wt |] eqn:E; [eauto |].
  exfalso. apply refract_None_iff in E. unfold sin2ThetaT in E; cbv zeta in E.
  set (eta := ior1 / ior2) in *.
  assert (He : 0 < eta < 1).
  { unfold eta. split.
    - apply Rdiv_lt_0_compat; lra.
    - apply Rmult_lt_reg_r with ior2; [lra |].
      unfold Rdiv. rewrite Rmult_assoc, Rinv_l by lra. lra. }
  set (c := dot wi n) in *.
  assert (Hm : 0 <= Rmax 0 (1 - c * c) <= 1).
  { split; [apply Rmax_l | apply Rmax_lub; nra]. }
  nra.
Qed.

Lemma refract_into_denser_medium_succeeds_witness :
  exists wt, refract (mkVec3 1 0 0) (mkVec3 0 0 1) 1 1.5 = Some wt.
Proof.
  apply (refract_into_denser_medium_succeeds (mkVec3 1 0 0) (mkVec3 0 0 1) 1 1.5); lra.
Defined.

(** X4: a ray that arrives along the normal is not bent: for a unit
    normal [n] and positive indices, [refract(n, n, ior1, ior2)] succeeds
    with the direction [-n]. *)
Theorem refract_head_on (n : Vec3) (ior1 ior2 : R) :
  dot n n = 1 -> 0 < ior1 -> 0 < ior2 ->
  refract n n ior1 ior2 = Some (- n)%vec.
Proof.
  intros Hn H1 H2.
  apply refract_eq with (s := 0) (c := 1); try lra.
  - unfold sin2ThetaT; cbv zeta. rewrite Hn, Rmax_left by lra. ring.
  - rewrite Hn. destruct n; apply Vec3_eq; simpl; ring.
Qed.

Lemma refract_head_on_witness :
  refract (mkVec3 0 0 1) (mkVec3 0 0 1) 1 1.5 = Some (- mkVec3 0 0 1)%vec.
Proof.
  apply (refract_head_on (mkVec3 0 0 1) 1 1.5); [unfold dot; simpl; lra | lra | lra].
Defined.

(** X5: [refract] does not turn the normal toward the ray.  When the
    unit normal [n] points the way the ray travels, so that [wi = -n], the
    direction returned is [-n]: the ray is sent back the way it came. *)
Theorem refract_turns_back_at_normal_along_ray (n : Vec3) (ior1 ior2 : R) :
  dot n n = 1 -> 0 < ior1 -> 0 < ior2 ->
  refract (- n)%vec n ior1 ior2 = Some (- n)%vec.
Proof.
  intros Hn H1 H2.
  assert (Hd : dot (- n)%vec n = -1) by (rewrite dot_vneg_l, Hn; ring).
  apply refract_eq with (s := 0) (c := 1); try lra.
  - unfold sin2ThetaT; cbv zeta. rewrite Hd, Rmax_left by lra. ring.
  - rewrite Hd. destruct n; apply Vec3_eq; simpl; ring.
Qed.

Lemma refract_turns_back_at_normal_along_ray_witness :
  refract (- mkVec3 0 0 1)%vec (mkVec3 0 0 1) 1.5 1 = Some (- mkVec3 0 0 1)%vec.
Proof.
  apply (refract_turns_back_at_normal_along_ray (mkVec3 0 0 1) 1.5 1);
    [unfold dot; simpl; lra | lra | lra].
Defined.

(** X6: between equal media a ray is not bent: for unit vectors with
    [dot(wi, n) > 0] and [ior1 = ior2 <> 0], [refract] succeeds with the
    direction [-wi]. *)
Theorem refract_between_equal_media (wi n : Vec3) (ior : R) :
  dot wi wi = 1 -> dot n n = 1 -> ior <> 0 -> 0 < dot wi n ->
  refract wi n ior ior = Some (- wi)%vec.
Proof.
  intros Hw Hn Hi Hc.
  assert (He : ior / ior = 1) by (field; exact Hi).
  pose proof (dot_sqr_le wi n) as Hcs. rewrite Hw, Hn in Hcs.
  apply refract_eq with (s := 1 - dot wi n * dot wi n) (c := dot wi n);
    try nra.
  - rewrite sin2ThetaT_unit, He by assumption. ring.
  - rewrite He. destruct wi, n; apply Vec3_eq; simpl; ring.
Qed.

Lemma refract_between_equal_media_witness :
  refract (mkVec3 0.6 0 0.8) (mkVec3 0 0 1) 1.5 1.5 = Some (- mkVec3 0.6 0 0.8)%vec.
Proof.
  apply (refract_between_equal_media (mkVec3 0.6 0 0.8) (mkVec3 0 0 1) 1.5);
    unfold dot; simpl; lra.
Defined.

(* ================================================================== *)
(** ** fresnel, further *)

(** X7: [fresnel] does not depend on the order of the two indices of
    refraction. *)
Theorem fresnel_symmetric (wo n : Vec3) (n1 n2 : R) :
  fresnel wo n n1 n2 = fresnel wo n n2 n1.
Proof.
  unfold fresnel; cbv zeta.
  replace (((n2 - n1) / (n2 + n1)) ^ 2) with (((n1 - n2) / (n1 + n2)) ^ 2);
    [reflexivity |].
  replace (n2 + n1) with (n1 + n2) by ring.
  unfold Rdiv. ring.
Qed.

(** X8: for positive indices of refraction, [fresnel] is [1] at grazing
    incidence, [dot(wo, n) = 0], and between equal media, [n1 = n2], it is
    [(1 - dot(wo, n))^5]. *)
Theorem fresnel_grazing_and_equal_media (wo n : Vec3) (n1 n2 : R) :
  0 < n1 -> 0 < n2 ->
  (dot wo n = 0 -> fresnel wo n n1 n2 = 1) /\
  (n1 = n2 -> fresnel wo n n1 n2 = (1 - dot wo n) ^ 5).
Proof.
  intros H1 H2. unfold fresnel; cbv zeta. split.
  - intros ->. rewrite Rminus_0_r, pow1. ring.
  - intros <-. replace (n1 - n1) with 0 by ring.
    unfold Rdiv. rewrite Rmult_0_l. simpl. ring.
Qed.

Lemma fresnel_grazing_and_equal_media_witness :
  fresnel (mkVec3 1 0 0) (mkVec3 0 0 1) 1 1.5 = 1 /\
  fresnel (mkVec3 0.6 0 0.8) (mkVec3 0 0 1) 1.5 1.5
  = (1 - dot (mkVec3 0.6 0 0.8) (mkVec3 0 0 1)) ^ 5.
Proof.
  assert (A : 0 < 1) by lra.
  assert (B : 0 < 1.5) by lra.
  split.
  - apply (proj1 (fresnel_grazing_and_equal_media
                    (mkVec3 1 0 0) (mkVec3 0 0 1) 1 1.5 A B)).
    unfold dot; simpl; lra.
  - apply (proj2 (fresnel_grazing_and_equal_media
                    (mkVec3 0.6 0 0.8) (mkVec3 0 0 1) 1.5 1.5 B B)).
    reflexivity.
Defined.

(* ================================================================== *)
(** ** rotate2D *)

(** X9: [rotate2D] keeps the distance of a point from the origin. *)
Theorem rotate2D_keeps_norm (p : Vec2) (theta : R) :
  px (rotate2D p theta) * px (rotate2D p theta) +
  py (rotate2D p theta) * py (rotate2D p theta)
  = px p * px p + py p * py p.
Proof.
  unfold rotate2D; simpl.
  pose proof (sin2_cos2 theta) as H. unfold Rsqr in H.
  replace ((px p * cos theta - py p * sin theta) * (px p * cos theta - py p * sin theta) +
           (px p * sin theta + py p * cos theta) * (px p * sin theta + py p * cos theta))
    with ((px p * px p + py p * py p) * (sin theta * sin theta + cos theta * cos theta))
    by ring.
  rewrite H. ring.
Qed.

(** X10: rotations compose by adding their angles, the rotation by [0]
    changes nothing, and the rotation by [-theta] undoes the rotation by
    [theta]. *)
Theorem rotate2D_composes (p : Vec2) (a b : R) :
  rotate2D (rotate2D p a) b = rotate2D p (a + b) /\
  rotate2D p 0 = p /\
  rotate2D (rotate2D p a) (- a) = p.
Proof.
  assert (Hc : forall q x y, rotate2D (rotate2D q x) y = rotate2D q (x + y)).
  { intros q x y. unfold rotate2D; simpl. rewrite cos_plus, sin_plus. f_equal; ring. }
  assert (H0 : forall q, rotate2D q 0 = q).
  { intros [x y]. unfold rotate2D; simpl. rewrite cos_0, sin_0. f_equal; ring. }
  split; [apply Hc | split; [apply H0 |]].
  rewrite Hc. replace (a + - a) with 0 by ring. apply H0.
Qed.

(* ================================================================== *)
(** ** raytrace, further *)

Section WalkInvariants.

Variable intersect : LensElement -> Ray -> option Hit.
Variable elements : list LensElement.
Variable reflection : bool.

(** A property of the loop variables that every iteration keeps holds
    after any number of iterations, and decides how the loop can end. *)
Variable Q : WalkState -> Prop.
Variable Res : TraceResult -> Prop.
Hypothesis Q_kept : forall st st',
  Q st -> iteration intersect elements reflection st = inl st' -> Q st'.
Hypothesis Q_ends : forall st r,
  Q st -> iteration intersect elements reflection st = inr r -> Res r.

Lemma state_after_invariant k : forall st st',
  Q st -> state_after intersect k elements reflection st = Some st' -> Q st'.
Proof.
  induction k as [| k IH]; intros st st' Hq.
  - simpl. intros [= <-]. exact Hq.
  - rewrite state_after_S.
    destruct (iteration intersect elements reflection st) as [st1 | r] eqn:It;
      [| discriminate].
    apply IH. eapply Q_kept; eassumption.
Qed.

Lemma walk_invariant fuel : forall st r,
  Q st -> walk intersect fuel elements reflection st = Some r -> Res r.
Proof.
  induction fuel as [| fuel IH]; intros st r Hq; [discriminate |].
  rewrite walk_S.
  destruct (iteration intersect elements reflection st) as [st1 | r1] eqn:It.
  - apply IH. eapply Q_kept; eassumption.
  - intros [= <-]. eapply Q_ends; eassumption.
Qed.

End WalkInvariants.

(** The iteration in which the loop is left. *)
Lemma walk_Some_at intersect elements reflection fuel : forall st r,
  walk intersect fuel elements reflection st = Some r ->
  exists k st',
    (k < fuel)%nat /\
    state_after intersect k elements reflection st = Some st' /\
    iteration intersect elements reflection st' = inr r.
Proof.
  induction fuel as [| fuel IH]; intros st r; [discriminate |].
  rewrite walk_S.
  destruct (iteration intersect elements reflection st) as [st1 | r1] eqn:It.
  - intro H. destruct (IH _ _ H) as (k & st' & Hk & Hs & Hi).
    exists (S k), st'. rewrite state_after_S, It. repeat split; [lia | assumption ..].
  - intros [= <-]. exists O, st. repeat split; [lia | exact It].
Qed.

(** The loop is left with success only at the bounds test. *)
Lemma iteration_Exited intersect elements reflection st ray_out :
  iteration intersect elements reflection st = inr (Exited ray_out) ->
  ray_out = ray st /\
  let i := (element_index st + (if toward_image (ray st) then 1 else -1))%Z in
  (i < 0 \/ Z.of_nat (List.length elements) <= i)%Z.
Proof.
  unfold iteration; cbv zeta.
  set (i := (element_index st + _)%Z).
  destruct (Z.ltb_spec i 0) as [H0 | H0]; simpl.
  - intros [= <-]. split; [reflexivity | lia].
  - destruct (Z.geb_spec i (Z.of_nat (List.length elements))) as [H1 | H1].
    + intros [= <-]. split; [reflexivity | lia].
    + destruct (element_at elements i) as [e |] eqn:E.
      * unfold visit. destruct e; destruct (intersect _ _); try discriminate;
          destruct reflection; try discriminate;
          destruct (refract _ _ _ _); discriminate.
      * exfalso. unfold element_at in E.
        destruct (Z.ltb_spec i 0); [lia |].
        apply nth_error_None in E. lia.
Qed.

(** X11: on an empty stack [raytrace] succeeds in its first iteration
    and returns the input ray, whatever the ray and the flag. *)
Theorem raytrace_empty_stack
    (intersect : LensElement -> Ray -> option Hit)
    (fuel : nat) (ray_in : Ray) (reflection : bool) :
  raytrace intersect (S fuel) [] ray_in reflection = Some (Exited ray_in).
Proof.
  unfold raytrace. rewrite walk_S, iteration_exit; [reflexivity |].
  unfold start; simpl. destruct (toward_image ray_in); lia.
Qed.

(** X14: a call whose rays keep the heading of the input ray and that
    returns a ray has been through the whole stack: the loop stayed for
    exactly [n] iterations, one at each of the [n] elements, and was left in
    iteration [n + 1] with the ray of the last of them. *)
Theorem raytrace_exit_visits_every_element
    (intersect : LensElement -> Ray -> option Hit)
    (elements : list LensElement) (ray_in : Ray) (reflection : bool)
    (fuel : nat) (ray_out : Ray) :
  keeps_heading intersect elements reflection ray_in ->
  raytrace intersect fuel elements ray_in reflection = Some (Exited ray_out) ->
  (List.length elements < fuel)%nat /\
  exists st,
    state_after intersect (List.length elements) elements reflection
                (start elements ray_in) = Some st /\
    ray st = ray_out.
Proof.
  intros Hk Hr. unfold raytrace in Hr.
  destruct (walk_Some_at _ _ _ _ _ _ Hr) as (k & st & Hlt & Hs & Hi).
  destruct (iteration_Exited _ _ _ _ _ Hi) as [-> Hout]. cbv zeta in Hout.
  destruct (state_after_index intersect elements reflection (toward_image ray_in)
              _ _ _ Hk Hs) as [Hidx Hin].
  rewrite (Hk _ _ Hs) in Hout. rewrite Hidx in Hout. unfold start in Hout.
  simpl in Hout.
  assert (Hkn : k = List.length elements).
  { destruct k as [| k'].
    - destruct (toward_image ray_in); lia.
    - specialize (Hin (Nat.neq_succ_0 _)). rewrite Hidx in Hin.
      unfold start in Hin; simpl in Hin.
      destruct (toward_image ray_in); lia. }
  subst k. split; [exact Hlt |]. exists st. split; [exact Hs | reflexivity].
Qed.

Lemma axial_ray_exits :
  raytrace (Samples.facet_intersect Samples.facing) 3 Samples.biconvex
           Samples.axial_ray false
  = Some (Exited Samples.axial_ray).
Proof.
  unfold raytrace.
  rewrite walk_S, SampleRuns.axial_step_1.
  rewrite walk_S, SampleRuns.axial_step_2.
  rewrite walk_S, SampleRuns.axial_step_3. reflexivity.
Qed.

Lemma raytrace_exit_visits_every_element_witness :
  (List.length Samples.biconvex < 3)%nat /\
  exists st,
    state_after (Samples.facet_intersect Samples.facing)
                (List.length Samples.biconvex) Samples.biconvex false
                (start Samples.biconvex Samples.axial_ray) = Some st /\
    ray st = Samples.axial_ray.
Proof.
  exact (raytrace_exit_visits_every_element
           (Samples.facet_intersect Samples.facing) Samples.biconvex
           Samples.axial_ray false 3 Samples.axial_ray
           axial_ray_keeps_heading axial_ray_exits).
Defined.

Lemma element_at_In elements i e : element_at elements i = Some e -> In e elements.
Proof.
  unfold element_at. destruct (i <? 0)%Z; [discriminate |]. apply nth_error_In.
Qed.

Section AperturesOnly.

Variable intersect : LensElement -> Ray -> option Hit.
Variable elements : list LensElement.
Hypothesis only_apertures : Forall (fun e => is_aperture e = true) elements.

Lemma aperture_iteration reflection st :
  match iteration intersect elements reflection st with
  | inl st' => direction (ray st') = direction (ray st)
  | inr r => r = BlockedAtAperture \/ r = Exited (ray st)
  end.
Proof.
  unfold iteration; cbv zeta.
  destruct (_ || _); [right; reflexivity |].
  match goal with |- context [element_at elements ?j] =>
    destruct (element_at elements j) as [e |] eqn:E end;
    [| right; reflexivity].
  apply element_at_In in E. rewrite Forall_forall in only_apertures.
  specialize (only_apertures e E).
  destruct e; [| discriminate]. unfold visit.
  destruct (intersect _ _); [reflexivity | left; reflexivity].
Qed.

Lemma aperture_iteration_flag st :
  iteration intersect elements true st = iteration intersect elements false st.
Proof.
  unfold iteration; cbv zeta.
  destruct (_ || _); [reflexivity |].
  match goal with |- context [element_at elements ?j] =>
    destruct (element_at elements j) as [e |] eqn:E end;
    [| reflexivity].
  apply element_at_In in E. rewrite Forall_forall in only_apertures.
  specialize (only_apertures e E).
  destruct e; [reflexivity | discriminate].
Qed.

Lemma aperture_walk_flag fuel : forall st,
  walk intersect fuel elements true st = walk intersect fuel elements false st.
Proof.
  induction fuel as [| fuel IH]; intro st; [reflexivity |].
  rewrite !walk_S, aperture_iteration_flag.
  destruct (iteration intersect elements false st); [apply IH | reflexivity].
Qed.

End AperturesOnly.

(** X12: a stack of apertures only.  Every call leaves the loop within
    [n + 1] iterations; it is either blocked or returns a ray with the
    direction of the input ray; and the [reflection] flag makes no
    difference. *)
Theorem raytrace_through_apertures
    (intersect : LensElement -> Ray -> option Hit)
    (elements : list LensElement) (ray_in : Ray) (reflection : bool) :
  Forall (fun e => is_aperture e = true) elements ->
  exists r,
    raytrace intersect (S (List.length elements)) elements ray_in reflection = Some r /\
    (r = BlockedAtAperture \/ exists o, r = Exited (mkRay o (direction ray_in))) /\
    raytrace intersect (S (List.length elements)) elements ray_in (negb reflection)
    = Some r.
Proof.
  intro Hap.
  assert (Hdir : forall k st,
             state_after intersect k elements reflection (start elements ray_in) = Some st ->
             direction (ray st) = direction ray_in).
  { intros k st. apply (state_after_invariant intersect elements reflection
                          (fun s => direction (ray s) = direction ray_in)).
    - intros s s' Hs It.
      pose proof (aperture_iteration intersect elements Hap reflection s) as A.
      rewrite It in A. congruence.
    - reflexivity. }
  assert (Hk : keeps_heading intersect elements reflection ray_in).
  { intros k st Hs. unfold toward_image. rewrite (Hdir _ _ Hs). reflexivity. }
  destruct (walk_ends_when_heading_kept _ _ _ _ Hk) as [r Hr].
  exists r. split; [exact Hr | split].
  - unfold raytrace in Hr. revert Hr.
    apply (walk_invariant intersect elements reflection
             (fun s => direction (ray s) = direction ray_in)
             (fun r => r = BlockedAtAperture \/
                       exists o, r = Exited (mkRay o (direction ray_in)))).
    + intros s s' Hs It.
      pose proof (aperture_iteration intersect elements Hap reflection s) as A.
      rewrite It in A. congruence.
    + intros s r0 Hs It.
      pose proof (aperture_iteration intersect elements Hap reflection s) as A.
      rewrite It in A. destruct A as [-> | ->]; [left; reflexivity |].
      right. exists (origin (ray s)). rewrite <- Hs. destruct (ray s); reflexivity.
    + reflexivity.
  - unfold raytrace in *. destruct reflection; cbn [negb].
    + rewrite <- aperture_walk_flag; assumption.
    + rewrite aperture_walk_flag; assumption.
Qed.

Lemma raytrace_through_apertures_witness :
  exists r,
    raytrace Samples.flat_intersect 2 Samples.stop Samples.ray_inside false = Some r /\
    (r = BlockedAtAperture \/
     exists o, r = Exited (mkRay o (direction Samples.ray_inside))) /\
    raytrace Samples.flat_intersect 2 Samples.stop Samples.ray_inside true = Some r.
Proof.
  apply (raytrace_through_apertures Samples.flat_intersect Samples.stop
           Samples.ray_inside false).
  repeat constructor.
Defined.

Lemma lens_iteration_reflection intersect elements st :
  Forall (fun e => is_aperture e = false) elements ->
  match iteration intersect elements true st with
  | inl st' => ray st' = ray st /\ ior st' = ior st
  | inr r => r = MissedLens \/ r = Exited (ray st)
  end.
Proof.
  intro Hl. unfold iteration; cbv zeta.
  destruct (_ || _); [right; reflexivity |].
  match goal with |- context [element_at elements ?j] =>
    destruct (element_at elements j) as [e |] eqn:E end;
    [| right; reflexivity].
  apply element_at_In in E. rewrite Forall_forall in Hl. specialize (Hl e E).
  destruct e; [discriminate |]. unfold visit.
  destruct (intersect _ _); [split; reflexivity | left; reflexivity].
Qed.

(** X13: with [reflection = true] a stack of lenses only changes
    nothing: every call leaves the loop within [n + 1] iterations, and it
    either misses a lens surface or returns the input ray itself, origin
    and direction. *)
Theorem raytrace_reflection_through_lenses
    (intersect : LensElement -> Ray -> option Hit)
    (elements : list LensElement) (ray_in : Ray) :
  Forall (fun e => is_aperture e = false) elements ->
  exists r,
    raytrace intersect (S (List.length elements)) elements ray_in true = Some r /\
    (r = MissedLens \/ r = Exited ray_in).
Proof.
  intro Hl.
  destruct (walk_ends_when_heading_kept intersect elements true ray_in
              (reflection_keeps_heading intersect elements ray_in)) as [r Hr].
  exists r. split; [exact Hr |].
  unfold raytrace in Hr. revert Hr.
  apply (walk_invariant intersect elements true
           (fun s => ray s = ray_in)
           (fun r => r = MissedLens \/ r = Exited ray_in)).
  - intros s s' Hs It.
    pose proof (lens_iteration_reflection intersect elements s Hl) as A.
    rewrite It in A. destruct A as [A _]. congruence.
  - intros s r0 Hs It.
    pose proof (lens_iteration_reflection intersect elements s Hl) as A.
    rewrite It in A. rewrite Hs in A. exact A.
  - reflexivity.
Qed.

Lemma raytrace_reflection_through_lenses_witness :
  exists r,
    raytrace (Samples.facet_intersect Samples.facing) 3 Samples.biconvex
             Samples.axial_ray true = Some r /\
    (r = MissedLens \/ r = Exited Samples.axial_ray).
Proof.
  apply (raytrace_reflection_through_lenses
           (Samples.facet_intersect Samples.facing) Samples.biconvex Samples.axial_ray).
  repeat constructor.
Defined.

(** X15: [raytrace] reads inside the vector.  When the bounds test of an
    iteration lets the index [element_index] pass, [elements[element_index]]
    exists, and so does [elements[next_element_index]] whenever the test
    [next_element_index >= 0] guards it: the upper bound needs no test. *)
Theorem raytrace_reads_inside_the_vector
    (elements : list LensElement) (st : WalkState) :
  let element_index :=
    (element_index st + (if toward_image (ray st) then 1 else -1))%Z in
  let next_element_index :=
    if toward_image (ray st) then element_index else (element_index - 1)%Z in
  ((element_index <? 0) || (element_index >=? Z.of_nat (List.length elements)))%Z
    = false ->
  (exists element, element_at elements element_index = Some element) /\
  ((next_element_index >=? 0)%Z = true ->
   exists next_element, element_at elements next_element_index = Some next_element).
Proof.
  intros i j Hb. apply orb_false_elim in Hb. destruct Hb as [H0 H1].
  apply Z.ltb_ge in H0. rewrite Z.geb_leb in H1. apply Z.leb_gt in H1.
  assert (Hat : forall m, (0 <= m < Z.of_nat (List.length elements))%Z ->
                          exists e, element_at elements m = Some e).
  { intros m Hm. unfold element_at.
    destruct (Z.ltb_spec m 0); [lia |].
    destruct (nth_error elements (Z.to_nat m)) as [e |] eqn:E; [eauto |].
    apply nth_error_None in E. lia. }
  split.
  - apply Hat. lia.
  - intro Hj. rewrite Z.geb_leb in Hj. apply Z.leb_le in Hj.
    apply Hat. subst j. destruct (toward_image (ray st)); lia.
Qed.

Lemma raytrace_reads_inside_the_vector_witness :
  exists element, element_at Samples.biconvex 0 = Some element.
Proof.
  assert (H : toward_image Samples.axial_ray = true)
    by (apply toward_image_true; simpl; lra).
  pose proof (raytrace_reads_inside_the_vector Samples.biconvex
                (start Samples.biconvex Samples.axial_ray)) as W.
  cbv zeta in W. unfold start in W. simpl ray in W. simpl element_index in W.
  rewrite H in W. simpl in W.
  exact (proj1 (W eq_refl)).
Defined.

(** X16: the index of refraction that [raytrace] tracks is, after every
    iteration, either [1.0] or the [ior] of a [Lens] of the stack. *)
Theorem tracked_ior_is_air_or_a_lens
    (intersect : LensElement -> Ray -> option Hit)
    (elements : list LensElement) (ray_in : Ray) (reflection : bool)
    (k : nat) (st : WalkState) :
  state_after intersect k elements reflection (start elements ray_in) = Some st ->
  ior st = 1 \/ exists e, In e elements /\ lens_ior e = Some (ior st).
Proof.
  apply (state_after_invariant intersect elements reflection
           (fun s => ior s = 1 \/ exists e, In e elements /\ lens_ior e = Some (ior s))).
  - intros s s' Hs. unfold iteration; cbv zeta.
    destruct (_ || _); [discriminate |].
    match goal with |- context [element_at elements ?j] =>
      destruct (element_at elements j) as [e |] eqn:E end;
      [| discriminate].
    unfold visit. destruct e.
    + destruct (intersect _ _); [| discriminate]. intros [= <-]. left; reflexivity.
    + destruct (intersect _ _); [| discriminate].
      destruct reflection.
      * intros [= <-]. exact Hs.
      * destruct (refract _ _ _ _); [| discriminate]. intros [= <-]. simpl.
        rewrite next_ior_cases.
        match goal with |- context [element_at elements ?j] =>
          destruct (element_at elements j) as [e' |] eqn:E' end;
          [| left; reflexivity].
        destruct (lens_ior e') as [m |] eqn:L; [| left; reflexivity].
        right. exists e'. split; [eapply element_at_In, E' | exact L].
  - left. reflexivity.
Qed.

Lemma tracked_ior_is_air_or_a_lens_witness :
  1.5 = 1 \/ exists e, In e Samples.biconvex /\ lens_ior e = Some 1.5.
Proof.
  apply (tracked_ior_is_air_or_a_lens (Samples.facet_intersect Samples.facing)
           Samples.biconvex Samples.axial_ray false 1 (mkWalk 0 Samples.axial_ray 1.5)).
  rewrite state_after_S, SampleRuns.axial_step_1. reflexivity.
Defined.

(* ================================================================== *)
(** ** computeCardinalPoints, further *)

(** X17: for a non-empty stack [computeCardinalPoints] returns [true]
    exactly when both probe rays are returned by [raytrace]; the six
    cardinal values are then those of the two returned rays, the image
    side from the first and the object side from the second. *)
Theorem computeCardinalPoints_true_iff
    (intersect : LensElement -> Ray -> option Hit)
    (fuel : nat) (sys sys' : LensSystem)
    (front : LensElement) (rest : list LensElement) :
  elements sys = front :: rest ->
  (computeCardinalPoints intersect fuel sys = Some (true, sys') <->
   exists out1 out2,
     raytrace intersect fuel (elements sys)
              (mkRay (mkVec3 0 0.001 (z front - 1)) (mkVec3 0 0 1)) false
     = Some (Exited out1) /\
     raytrace intersect fuel (elements sys)
              (mkRay (mkVec3 0 0.001 0) (mkVec3 0 0 (-1))) false
     = Some (Exited out2) /\
     sys' = mkLensSystem (elements sys)
              (focal_z_of out2) (principal_z_of out2)
              (focal_z_of out2 - principal_z_of out2)
              (focal_z_of out1) (principal_z_of out1)
              (focal_z_of out1 - principal_z_of out1)).
Proof.
  intro El. unfold computeCardinalPoints. rewrite El.
  change (object_probe front)
    with (mkRay (mkVec3 0 0.001 (z front - 1)) (mkVec3 0 0 1)).
  change image_probe with (mkRay (mkVec3 0 0.001 0) (mkVec3 0 0 (-1))).
  destruct (raytrace intersect fuel (front :: rest)
              (mkRay (mkVec3 0 0.001 (z front - 1)) (mkVec3 0 0 1)) false)
    as [[out1 | | |] |];
    try (split; [discriminate | intros (? & ? & ? & _); discriminate]).
  cbv beta iota zeta. simpl elements. rewrite El.
  destruct (raytrace intersect fuel (front :: rest)
              (mkRay (mkVec3 0 0.001 0) (mkVec3 0 0 (-1))) false)
    as [[out2 | | |] |];
    try (split; [discriminate | intros (? & ? & _ & ? & _); discriminate]).
  split.
  - intros [= <-]. exists out1, out2. repeat split.
    unfold set_object, set_image; simpl. rewrite El. reflexivity.
  - intros (o1 & o2 & [= <-] & [= <-] & ->).
    unfold set_object, set_image; simpl. rewrite El. reflexivity.
Qed.

Lemma computeCardinalPoints_true_iff_witness :
  exists sys',
    computeCardinalPoints Samples.flat_intersect 2 Samples.stop_system
    = Some (true, sys').
Proof.
  destruct (single_stop_probes 0 0.005 0.01 (-0.01)) as [[p1 P1] [p2 P2]];
    [unfold height; lra |].
  eexists.
  apply (computeCardinalPoints_true_iff Samples.flat_intersect 2
           Samples.stop_system _ (Aperture 0 0.005 0.01 (-0.01)) [] eq_refl).
  eexists _, _. split; [exact P1 | split; [exact P2 | reflexivity]].
Defined.

(** X18: [computeCardinalPoints] writes the image-side values before it
    traces the second probe ray.  When the first probe ray is returned and
    the second trace fails, the call returns [false] and leaves an object
    whose image-side values are the new ones and whose object-side values
    are the old ones. *)
Theorem computeCardinalPoints_fails_half_way
    (intersect : LensElement -> Ray -> option Hit)
    (fuel : nat) (sys : LensSystem)
    (front : LensElement) (rest : list LensElement)
    (out1 : Ray) (r2 : TraceResult) :
  elements sys = front :: rest ->
  raytrace intersect fuel (elements sys)
           (mkRay (mkVec3 0 0.001 (z front - 1)) (mkVec3 0 0 1)) false
  = Some (Exited out1) ->
  raytrace intersect fuel (elements sys)
           (mkRay (mkVec3 0 0.001 0) (mkVec3 0 0 (-1))) false
  = Some r2 ->
  succeeded r2 = false ->
  computeCardinalPoints intersect fuel sys
  = Some (false,
          mkLensSystem (elements sys)
            (object_focal_z sys) (object_principal_z sys) (object_focal_length sys)
            (focal_z_of out1) (principal_z_of out1)
            (focal_z_of out1 - principal_z_of out1)).
Proof.
  intros El H1 H2 Hf. unfold computeCardinalPoints. rewrite El.
  change (object_probe front)
    with (mkRay (mkVec3 0 0.001 (z front - 1)) (mkVec3 0 0 1)).
  change image_probe with (mkRay (mkVec3 0 0.001 0) (mkVec3 0 0 (-1))).
  rewrite El in H1, H2. rewrite H1. cbv beta iota zeta. simpl elements.
  rewrite El, H2.
  destruct r2; [discriminate | unfold set_image; rewrite El; reflexivity ..].
Qed.

(** X19: [computeCardinalPoints] never changes the stack, and a call
    that returns [false] never changes the object-side values. *)
Theorem computeCardinalPoints_leaves_stack
    (intersect : LensElement -> Ray -> option Hit)
    (fuel : nat) (sys sys' : LensSystem) (b : bool) :
  computeCardinalPoints intersect fuel sys = Some (b, sys') ->
  elements sys' = elements sys /\
  (b = false ->
   object_focal_z sys' = object_focal_z sys /\
   object_principal_z sys' = object_principal_z sys /\
   object_focal_length sys' = object_focal_length sys).
Proof.
  unfold computeCardinalPoints.
  destruct (elements sys) as [| front rest] eqn:El; [discriminate |].
  destruct (raytrace _ _ _ _ _) as [[ray_out | | |] |]; try discriminate;
    try (intros [= <- <-]; rewrite El; auto).
  cbv beta iota zeta. simpl elements.
  destruct (raytrace _ _ _ _ _) as [[ray_out2 | | |] |]; try discriminate;
    intros [= <- <-]; simpl; rewrite ?El; (split; [reflexivity |]);
    try discriminate; auto.
Qed.

Lemma computeCardinalPoints_leaves_stack_witness :
  exists sys',
    computeCardinalPoints Samples.flat_intersect 2 Samples.stop_system
    = Some (true, sys') /\
    elements sys' = Samples.stop.
Proof.
  destruct (single_stop_probes 0 0.005 0.01 (-0.01)) as [[p1 P1] [p2 P2]];
    [unfold height; lra |].
  assert (E : exists sys',
             computeCardinalPoints Samples.flat_intersect 2 Samples.stop_system
             = Some (true, sys')).
  { unfold computeCardinalPoints, Samples.stop_system; simpl elements.
    unfold Samples.stop. rewrite P1. cbv beta iota zeta. simpl elements.
    rewrite P2. eexists. reflexivity. }
  destruct E as [sys' E]. exists sys'. split; [exact E |].
  exact (proj1 (computeCardinalPoints_leaves_stack Samples.flat_intersect 2
                  Samples.stop_system sys' true E)).
Defined.

Module SteepRuns.
Import Cases.

Lemma steep_refraction :
  refract (- mkVec3 0 0 1)%vec steep_normal 1 1.6 = Some (mkVec3 0 (-0.6) 0.8).
Proof.
  apply refract_eq with (s := 0.36) (c := 0.8); try lra.
  - unfold sin2ThetaT, dot, steep_normal; simpl. rewrite Rmax_right by lra. lra.
  - apply Vec3_eq; unfold dot, steep_normal; simpl; lra.
Qed.

(** The first probe ray is bent toward the axis and returned. *)
Lemma first_probe :
  raytrace (one_way_intersect steep_normal) 2 [steep_lens]
           (mkRay (mkVec3 0 0.001 (z steep_lens - 1)) (mkVec3 0 0 1)) false
  = Some (Exited (mkRay (mkVec3 0 0.001 (z steep_lens - 1)) (mkVec3 0 (-0.6) 0.8))).
Proof.
  unfold raytrace, start, one_way_intersect, steep_lens.
  rewrite walk_S. run_iteration.
  change (refract _ _ _ _) with (refract (- mkVec3 0 0 1)%vec steep_normal 1 1.6).
  rewrite steep_refraction. run_iteration. reflexivity.
Qed.

(** The second probe ray travels toward the object side and misses. *)
Lemma second_probe :
  raytrace (one_way_intersect steep_normal) 2 [steep_lens]
           (mkRay (mkVec3 0 0.001 0) (mkVec3 0 0 (-1))) false
  = Some MissedLens.
Proof.
  unfold raytrace, start, one_way_intersect, steep_lens.
  rewrite walk_S. run_iteration. reflexivity.
Qed.

End SteepRuns.

Lemma computeCardinalPoints_fails_half_way_witness :
  computeCardinalPoints (Cases.one_way_intersect Cases.steep_normal) 2
                        Cases.steep_system
  = Some (false,
          mkLensSystem [Cases.steep_lens] 0 0 0
            (focal_z_of (mkRay (mkVec3 0 0.001 (z Cases.steep_lens - 1))
                               (mkVec3 0 (-0.6) 0.8)))
            (principal_z_of (mkRay (mkVec3 0 0.001 (z Cases.steep_lens - 1))
                                   (mkVec3 0 (-0.6) 0.8)))
            (focal_z_of (mkRay (mkVec3 0 0.001 (z Cases.steep_lens - 1))
                               (mkVec3 0 (-0.6) 0.8)) -
             principal_z_of (mkRay (mkVec3 0 0.001 (z Cases.steep_lens - 1))
                                   (mkVec3 0 (-0.6) 0.8)))).
Proof.
  exact (computeCardinalPoints_fails_half_way
           (Cases.one_way_intersect Cases.steep_normal) 2 Cases.steep_system
           Cases.steep_lens [] _ MissedLens eq_refl
           SteepRuns.first_probe SteepRuns.second_probe eq_refl).
Defined.

(** X20: when the first probe ray is returned with a direction that is
    not parallel to the axis ([direction.y <> 0]), the point whose [z] is
    stored as [image_focal_z] lies on the axis, the point whose [z] is
    stored as [image_principal_z] lies at the probe height [0.001], and
    [image_focal_length] is [-0.001 * direction.z / direction.y]: it
    depends on the direction of the returned ray only. *)
Theorem image_focal_length_from_direction
    (intersect : LensElement -> Ray -> option Hit)
    (fuel : nat) (sys sys' : LensSystem) (b : bool)
    (front : LensElement) (rest : list LensElement) (ray_out : Ray) :
  elements sys = front :: rest ->
  raytrace intersect fuel (elements sys)
           (mkRay (mkVec3 0 0.001 (z front - 1)) (mkVec3 0 0 1)) false
  = Some (Exited ray_out) ->
  vy (direction ray_out) <> 0 ->
  computeCardinalPoints intersect fuel sys = Some (b, sys') ->
  image_focal_length sys'
    = - (0.001 * vz (direction ray_out) / vy (direction ray_out)) /\
  (exists x, ray_at ray_out (- vy (origin ray_out) / vy (direction ray_out))
             = mkVec3 x 0 (image_focal_z sys')) /\
  (exists x, ray_at ray_out (- (vy (origin ray_out) - 0.001) / vy (direction ray_out))
             = mkVec3 x 0.001 (image_principal_z sys')).
Proof.
  intros El H1 Hy. unfold computeCardinalPoints. rewrite El.
  change (object_probe front)
    with (mkRay (mkVec3 0 0.001 (z front - 1)) (mkVec3 0 0 1)).
  rewrite El in H1. rewrite H1. cbv beta iota zeta. simpl elements.
  assert (G : forall s,
             image_focal_z s = focal_z_of ray_out ->
             image_principal_z s = principal_z_of ray_out ->
             image_focal_length s = focal_z_of ray_out - principal_z_of ray_out ->
             image_focal_length s
               = - (0.001 * vz (direction ray_out) / vy (direction ray_out)) /\
             (exists x, ray_at ray_out (- vy (origin ray_out) / vy (direction ray_out))
                        = mkVec3 x 0 (image_focal_z s)) /\
             (exists x, ray_at ray_out
                          (- (vy (origin ray_out) - 0.001) / vy (direction ray_out))
                        = mkVec3 x 0.001 (image_principal_z s))).
  { intros s -> -> ->. unfold focal_z_of, principal_z_of, ray_at, height; simpl.
    split; [field; exact Hy | split].
    - eexists. apply Vec3_eq; simpl; [reflexivity | field; exact Hy | reflexivity].
    - eexists. apply Vec3_eq; simpl; [reflexivity | field; exact Hy | reflexivity]. }
  destruct (raytrace intersect fuel (elements sys) image_probe false)
    as [[ray_out2 | | |] |]; try discriminate;
    intros [= _ <-]; apply G; reflexivity.
Qed.

Lemma image_focal_length_from_direction_witness :
  exists sys',
    computeCardinalPoints (Cases.one_way_intersect Cases.steep_normal) 2
                          Cases.steep_system = Some (false, sys') /\
    image_focal_length sys' = - (0.001 * 0.8 / -0.6).
Proof.
  assert (E : exists sys',
             computeCardinalPoints (Cases.one_way_intersect Cases.steep_normal) 2
                                   Cases.steep_system = Some (false, sys')).
  { unfold computeCardinalPoints, Cases.steep_system; simpl elements.
    cbv beta iota zeta.
    change (object_probe Cases.steep_lens)
      with (mkRay (mkVec3 0 0.001 (z Cases.steep_lens - 1)) (mkVec3 0 0 1)).
    rewrite SteepRuns.first_probe. cbv beta iota zeta. simpl elements.
    change image_probe with (mkRay (mkVec3 0 0.001 0) (mkVec3 0 0 (-1))).
    rewrite SteepRuns.second_probe. eexists. reflexivity. }
  destruct E as [sys' E]. exists sys'. split; [exact E |].
  assert (Hy : vy (direction (mkRay (mkVec3 0 0.001 (z Cases.steep_lens - 1))
                                    (mkVec3 0 (-0.6) 0.8))) <> 0)
    by (simpl; lra).
  exact (proj1 (image_focal_length_from_direction
                  (Cases.one_way_intersect Cases.steep_normal) 2
                  Cases.steep_system sys' false Cases.steep_lens [] _ eq_refl
                  SteepRuns.first_probe Hy E)).
Defined.

(* ================================================================== *)
(** ** Loading and placement, further *)

Lemma NoDup_map_injective {A B} (f : A -> B) (l : list A) :
  NoDup (map f l) -> forall a b, In a l -> In b l -> f a = f b -> a = b.
Proof.
  induction l as [| x l IH]; simpl; [intros _ a b [] |].
  intros Hnd a b Ha Hb Hf. inversion Hnd as [| ? ? Hx Hl]; subst.
  destruct Ha as [<- | Ha], Hb as [<- | Hb].
  - reflexivity.
  - exfalso. apply Hx. rewrite Hf. apply in_map, Hb.
  - exfalso. apply Hx. rewrite <- Hf. apply in_map, Ha.
  - apply IH; assumption.
Qed.

(** Two vectors in ascending order of index that hold the same elements,
    no two of them with the same index, are the same vector. *)
Lemma sorted_by_index_unique (l1 : list LensElement) : forall l2,
  StronglySorted (fun a b => (index a <= index b)%N) l1 ->
  StronglySorted (fun a b => (index a <= index b)%N) l2 ->
  Permutation l1 l2 ->
  NoDup (map index l1) ->
  l1 = l2.
Proof.
  induction l1 as [| a t1 IH]; intros l2 S1 S2 P Hnd.
  - apply Permutation_nil in P. congruence.
  - destruct l2 as [| b t2].
    + apply Permutation_sym, Permutation_nil in P. discriminate.
    + inversion S1 as [| ? ? S1' F1]; subst. inversion S2 as [| ? ? S2' F2]; subst.
      rewrite Forall_forall in F1, F2.
      assert (Hb : In b (a :: t1))
        by (eapply Permutation_in; [apply Permutation_sym, P | left; reflexivity]).
      assert (Ha : In a (b :: t2))
        by (eapply Permutation_in; [exact P | left; reflexivity]).
      assert (Hab : a = b).
      { apply (NoDup_map_injective index (a :: t1) Hnd);
          [left; reflexivity | exact Hb |].
        destruct Hb as [<- | Hb]; [reflexivity |].
        destruct Ha as [<- | Ha]; [reflexivity |].
        specialize (F1 b Hb). specialize (F2 a Ha). lia. }
      subst b. f_equal. apply IH; try assumption.
      * eapply Permutation_cons_inv, P.
      * inversion Hnd; assumption.
Qed.

(** X21: when no two entries of a prescription carry the same index
    value, the loaded stack depends neither on the order of the entries in
    the file nor on how [std::sort] orders equal keys. *)
Theorem loadJSON_order_independent
    (sort1 sort2 : list LensElement -> list LensElement)
    (items1 items2 : list JsonValue) :
  sorts_by_index sort1 -> sorts_by_index sort2 ->
  Permutation items1 items2 ->
  NoDup (map json_index items1) ->
  loadJSON sort1 (Some items1) = loadJSON sort2 (Some items2).
Proof.
  intros H1 H2 P Hnd. unfold loadJSON. f_equal.
  destruct (loadJSON_sorted sort1 items1 H1) as [P1 S1].
  destruct (loadJSON_sorted sort2 items2 H2) as [P2 S2].
  apply sorted_by_index_unique; try assumption.
  - eapply perm_trans; [apply Permutation_sym, P1 |].
    eapply perm_trans; [apply Permutation_map, P | exact P2].
  - eapply Permutation_NoDup;
      [apply Permutation_map, P1 |].
    rewrite map_map.
    erewrite map_ext; [exact Hnd | apply index_element_of_json].
Qed.

Lemma loadJSON_order_independent_witness :
  loadJSON insertion_sort (Some Cases.doublet)
  = loadJSON insertion_sort (Some Cases.doublet_swapped).
Proof.
  apply (loadJSON_order_independent insertion_sort insertion_sort
           Cases.doublet Cases.doublet_swapped
           insertion_sort_sorts insertion_sort_sorts).
  - apply perm_swap.
  - simpl. repeat constructor; simpl; intuition discriminate.
Defined.

Lemma sum_thickness_app l1 l2 :
  sum_thickness (l1 ++ l2) = sum_thickness l1 + sum_thickness l2.
Proof.
  unfold sum_thickness. induction l1 as [| e l1 IH]; simpl; [ring |].
  rewrite IH. ring.
Qed.

Lemma sum_thickness_positive l :
  Forall (fun e => 0 < thickness e) l -> l <> [] -> 0 < sum_thickness l.
Proof.
  unfold sum_thickness. induction 1 as [| e l He Hl IH]; [congruence |].
  intros _. simpl. destruct l as [| x l'].
  - simpl. lra.
  - assert (0 < fold_right (fun e s => s + thickness e) 0 (x :: l'))
      by (apply IH; discriminate).
    lra.
Qed.

Lemma In_skipn {A} (n : nat) (l : list A) x : In x (skipn n l) -> In x l.
Proof.
  intro H. rewrite <- (firstn_skipn n l). apply in_or_app. right. exact H.
Qed.

Lemma In_firstn {A} (n : nat) (l : list A) x : In x (firstn n l) -> In x l.
Proof.
  intro H. rewrite <- (firstn_skipn n l). apply in_or_app. left. exact H.
Qed.

(** X22: when every thickness is positive, the constructor puts the
    elements on the negative axis in the order of the vector: an element
    lies strictly before every later one, and every element lies strictly
    before the origin. *)
Theorem assign_z_orders_the_stack (l : list LensElement) (i j : nat)
    (a b : LensElement) :
  Forall (fun e => 0 < thickness e) l ->
  (i < j)%nat ->
  nth_error (assign_z l) i = Some a ->
  nth_error (assign_z l) j = Some b ->
  z a < z b /\ z b < 0.
Proof.
  intros Hpos Hij Ha Hb.
  assert (Hpos' : Forall (fun e => 0 < thickness e) (assign_z l)).
  { rewrite Forall_forall in *. intros x Hx.
    destruct (assign_z_In _ _ Hx) as (y & v & Hy & ->).
    rewrite thickness_set_z. apply Hpos, Hy. }
  set (L := assign_z l) in *.
  rewrite (assign_z_sum l _ _ Ha), (assign_z_sum l _ _ Hb). fold L.
  assert (Hsplit : skipn i L = firstn (j - i) (skipn i L) ++ skipn j L).
  { rewrite <- (firstn_skipn (j - i) (skipn i L)) at 1.
    rewrite skipn_skipn. repeat f_equal. lia. }
  assert (Hfi : 0 < sum_thickness (firstn (j - i) (skipn i L))).
  { apply sum_thickness_positive.
    - apply Forall_forall. intros x Hx. rewrite Forall_forall in Hpos'.
      apply Hpos'. eapply In_skipn, In_firstn, Hx.
    - rewrite (skipn_nth_error _ _ _ Ha).
      destruct (j - i)%nat eqn:E; [lia | discriminate]. }
  assert (Hsj : 0 < sum_thickness (skipn j L)).
  { apply sum_thickness_positive.
    - apply Forall_forall. intros x Hx. rewrite Forall_forall in Hpos'.
      apply Hpos'. eapply In_skipn, Hx.
    - rewrite (skipn_nth_error _ _ _ Hb). discriminate. }
  rewrite Hsplit at 1. rewrite sum_thickness_app. lra.
Qed.

Lemma assign_z_orders_the_stack_witness :
  exists a b,
    nth_error (assign_z Samples.biconvex) 0 = Some a /\
    nth_error (assign_z Samples.biconvex) 1 = Some b /\
    z a < z b /\ z b < 0.
Proof.
  eexists _, _. split; [reflexivity | split; [reflexivity |]].
  apply (assign_z_orders_the_stack Samples.biconvex 0 1).
  - repeat constructor; simpl; lra.
  - lia.
  - reflexivity.
  - reflexivity.
Defined.

(** X23: the constructor loop overwrites [z] and nothing else.  Stacks
    that agree in everything but [z] are placed alike, the placed stack
    agrees with the given one in everything but [z], and running the loop
    a second time changes nothing. *)
Theorem assign_z_depends_on_thickness_only (l1 l2 : list LensElement) :
  map without_z l1 = map without_z l2 ->
  assign_z l1 = assign_z l2 /\
  map without_z (assign_z l1) = map without_z l1 /\
  assign_z (assign_z l1) = assign_z l1.
Proof.
  intro H. split; [| split].
  - rewrite <- (assign_z_without_z l1), <- (assign_z_without_z l2), H. reflexivity.
  - apply without_z_assign_z.
  - rewrite <- (assign_z_without_z (assign_z l1)), without_z_assign_z.
    apply assign_z_without_z.
Qed.

Lemma assign_z_depends_on_thickness_only_witness :
  assign_z Samples.biconvex = assign_z Cases.biconvex_unplaced /\
  map without_z (assign_z Samples.biconvex) = map without_z Samples.biconvex /\
  assign_z (assign_z Samples.biconvex) = assign_z Samples.biconvex.
Proof.
  exact (assign_z_depends_on_thickness_only Samples.biconvex Cases.biconvex_unplaced
           eq_refl).
Defined.

(** X24: every constructed [LensSystem] has a non-empty stack, the
    loaded entries placed by the constructor loop, and cardinal values
    that come from two probe rays returned by [raytrace] over that stack;
    each focal length is the difference of its focal and principal
    position. *)
Theorem constructed_system_has_cardinal_points
    (intersect : LensElement -> Ray -> option Hit)
    (sort : list LensElement -> list LensElement)
    (fuel : nat) (stream : option (list JsonValue)) (sys : LensSystem) :
  LensSystem_new intersect sort fuel stream = Some (Constructed sys) ->
  (exists items,
      stream = Some items /\
      elements sys = assign_z (sort (map element_of_json items))) /\
  (exists front rest out1 out2,
      elements sys = front :: rest /\
      raytrace intersect fuel (elements sys)
               (mkRay (mkVec3 0 0.001 (z front - 1)) (mkVec3 0 0 1)) false
      = Some (Exited out1) /\
      raytrace intersect fuel (elements sys)
               (mkRay (mkVec3 0 0.001 0) (mkVec3 0 0 (-1))) false
      = Some (Exited out2) /\
      image_focal_z sys = focal_z_of out1 /\
      image_principal_z sys = principal_z_of out1 /\
      object_focal_z sys = focal_z_of out2 /\
      object_principal_z sys = principal_z_of out2) /\
  image_focal_length sys = image_focal_z sys - image_principal_z sys /\
  object_focal_length sys = object_focal_z sys - object_principal_z sys.
Proof.
  unfold LensSystem_new.
  destruct stream as [items |]; simpl loadJSON; cbv beta iota zeta;
    [| discriminate].
  remember (assign_z (sort (map element_of_json items))) as placed eqn:Ep.
  destruct (computeCardinalPoints intersect fuel (mkLensSystem placed 0 0 0 0 0 0))
    as [[[|] sys'] |] eqn:C; try discriminate.
  intros [= <-]. revert C. unfold computeCardinalPoints.
  simpl elements. destruct placed as [| front rest]; [discriminate |].
  change (object_probe front)
    with (mkRay (mkVec3 0 0.001 (z front - 1)) (mkVec3 0 0 1)).
  change image_probe with (mkRay (mkVec3 0 0.001 0) (mkVec3 0 0 (-1))).
  destruct (raytrace intersect fuel (front :: rest)
              (mkRay (mkVec3 0 0.001 (z front - 1)) (mkVec3 0 0 1)) false)
    as [[out1 | | |] |] eqn:T1; try discriminate.
  cbv beta iota zeta. simpl elements.
  destruct (raytrace intersect fuel (front :: rest)
              (mkRay (mkVec3 0 0.001 0) (mkVec3 0 0 (-1))) false)
    as [[out2 | | |] |] eqn:T2; try discriminate.
  intros [= <-]. simpl. split; [| split; [| split; reflexivity]].
  - exists items. split; [reflexivity | exact Ep].
  - exists front, rest, out1, out2. repeat split; assumption.
Qed.

Lemma constructed_system_has_cardinal_points_witness :
  exists sys,
    LensSystem_new Samples.flat_intersect insertion_sort 2 (Some Samples.single_stop)
    = Some (Constructed sys) /\
    image_focal_length sys = image_focal_z sys - image_principal_z sys /\
    object_focal_length sys = object_focal_z sys - object_principal_z sys.
Proof.
  destruct single_stop_constructed as [sys E].
  exists sys. split; [exact E |].
  exact (proj2 (proj2 (constructed_system_has_cardinal_points
                         Samples.flat_intersect insertion_sort 2
                         (Some Samples.single_stop) sys E))).
Defined.

(** X25: a prescription without entries cannot be constructed:
    [computeCardinalPoints] begins with [elements.front()], which has no
    defined value for the empty vector, so the constructor has no result,
    however long the traces may run. *)
Theorem empty_prescription_has_no_result
    (intersect : LensElement -> Ray -> option Hit)
    (sort : list LensElement -> list LensElement) (fuel : nat) :
  sorts_by_index sort ->
  loadJSON sort (Some []) = Some [] /\
  LensSystem_new intersect sort fuel (Some []) = None.
Proof.
  intro Hs. destruct (Hs []) as [P _]. apply Permutation_nil in P.
  unfold LensSystem_new, loadJSON. simpl map. rewrite P.
  split; reflexivity.
Qed.

Lemma empty_prescription_has_no_result_witness :
  loadJSON insertion_sort (Some []) = Some [] /\
  LensSystem_new Samples.flat_intersect insertion_sort 5 (Some []) = None.
Proof.
  exact (empty_prescription_has_no_result Samples.flat_intersect insertion_sort 5
           insertion_sort_sorts).
Defined.

(** X26: the end at which [raytrace] enters the stack.  The first element
    visited is the first of the vector for an input ray with
    [direction.z() > 0] and the last of the vector otherwise; a ray with
    [direction.z() = 0] is walked like a ray toward the object side. *)
Theorem raytrace_enters_at_the_facing_end
    (intersect : LensElement -> Ray -> option Hit)
    (elements : list LensElement) (ray_in : Ray) (reflection : bool)
    (st : WalkState) :
  state_after intersect 1 elements reflection (start elements ray_in) = Some st ->
  element_index st =
    (if Rgt_dec (vz (direction ray_in)) 0 then 0
     else Z.of_nat (List.length elements) - 1)%Z /\
  (vz (direction ray_in) = 0 ->
   element_index st = (Z.of_nat (List.length elements) - 1)%Z).
Proof.
  rewrite state_after_S.
  destruct (iteration intersect elements reflection (start elements ray_in))
    as [st1 | r] eqn:It; [| discriminate].
  simpl. intros [= ->]. apply iteration_inl in It. destruct It as [Hi _].
  unfold start in Hi; simpl in Hi. unfold toward_image in Hi.
  split.
  - destruct (Rgt_dec (vz (direction ray_in)) 0); lia.
  - intro H0. destruct (Rgt_dec (vz (direction ray_in)) 0); [lra | lia].
Qed.

Lemma raytrace_enters_at_the_facing_end_witness :
  0%Z = (if Rgt_dec (vz (direction Samples.axial_ray)) 0 then 0
         else Z.of_nat (List.length Samples.biconvex) - 1)%Z.
Proof.
  apply (raytrace_enters_at_the_facing_end (Samples.facet_intersect Samples.facing)
           Samples.biconvex Samples.axial_ray false (mkWalk 0 Samples.axial_ray 1.5)).
  rewrite state_after_S, SampleRuns.axial_step_1. reflexivity.
Defined.
